(** * The TCP connection pool of net/tcp/tcp_conn.c

    A shallow embedding of the connection-record pool (allocation,
    reclamation, release), of the local-port selector and of the three
    lifecycle entry points accept, bind and connect, followed by the
    properties established about them. *)

From Stdlib Require Import ZArith Lia.
From stdpp Require Import base tactics option numbers list.

Local Open Scope Z_scope.

(** ** Connection records *)

(** Modelled from the spec: the TCP state constants of uip.h, which is not
    among the sources.  Only the states that the pool code compares against
    or assigns are listed; [UIP_CLOSED] is the all-zero value. *)
Inductive tcpstate :=
  | UIP_CLOSED
  | UIP_ALLOCATED
  | UIP_SYN_RCVD
  | UIP_SYN_SENT
  | UIP_ESTABLISHED
  | UIP_FIN_WAIT_1
  | UIP_FIN_WAIT_2
  | UIP_CLOSING
  | UIP_TIME_WAIT
  | UIP_LAST_ACK.

#[global] Instance tcpstate_eq_dec : EqDecision tcpstate.
Proof. solve_decision. Defined.

(** [struct uip_conn].  The intrusive [node] link is represented by the two
    queues of the pool; handles to callbacks and buffers are numbers.  A
    pointer to a record is its index in [g_tcp_connections]. *)
Record uip_conn := mk_conn {
  tcpstateflags : tcpstate;
  lport : Z;                 (* local port, network byte order *)
  rport : Z;                 (* remote port, network byte order *)
  ripaddr : Z;
  rcvseq : Z;
  sndseq : Z;
  crefs : Z;
  sa : Z;
  sv : Z;
  rto : Z;
  timer : Z;
  nrtx : Z;
  mss : Z;
  unacked : Z;
  expired : Z;
  isn : Z;
  sent : Z;
  cb_list : list nat;        (* conn->list, the callback chain *)
  readahead : list nat;      (* read-ahead buffers *)
  write_q : list nat;        (* write buffers *)
  unacked_q : list nat;      (* sent but not yet acknowledged buffers *)
  backlog : option nat;      (* own pending-accept list *)
  blparent : option nat      (* listening parent holding this record *)
}.

(** The result of [memset(conn, 0, sizeof(struct uip_conn))]. *)
Definition conn_zero : uip_conn :=
  {| tcpstateflags := UIP_CLOSED; lport := 0; rport := 0; ripaddr := 0;
     rcvseq := 0; sndseq := 0; crefs := 0; sa := 0; sv := 0; rto := 0;
     timer := 0; nrtx := 0; mss := 0; unacked := 0; expired := 0; isn := 0;
     sent := 0; cb_list := []; readahead := []; write_q := []; unacked_q := [];
     backlog := None; blparent := None |}.

#[global] Instance uip_conn_inhabited : Inhabited uip_conn := populate conn_zero.

Definition set_tcpstateflags (s : tcpstate) (c : uip_conn) : uip_conn :=
  {| tcpstateflags := s; lport := lport c; rport := rport c;
     ripaddr := ripaddr c; rcvseq := rcvseq c; sndseq := sndseq c;
     crefs := crefs c; sa := sa c; sv := sv c; rto := rto c;
     timer := timer c; nrtx := nrtx c; mss := mss c; unacked := unacked c;
     expired := expired c; isn := isn c; sent := sent c; cb_list := cb_list c;
     readahead := readahead c; write_q := write_q c;
     unacked_q := unacked_q c; backlog := backlog c;
     blparent := blparent c |}.

Definition set_lport (v : Z) (c : uip_conn) : uip_conn :=
  {| tcpstateflags := tcpstateflags c; lport := v; rport := rport c;
     ripaddr := ripaddr c; rcvseq := rcvseq c; sndseq := sndseq c;
     crefs := crefs c; sa := sa c; sv := sv c; rto := rto c;
     timer := timer c; nrtx := nrtx c; mss := mss c; unacked := unacked c;
     expired := expired c; isn := isn c; sent := sent c; cb_list := cb_list c;
     readahead := readahead c; write_q := write_q c;
     unacked_q := unacked_q c; backlog := backlog c;
     blparent := blparent c |}.

(** The states that [uip_tcpalloc] is willing to sacrifice. *)
Definition sacrificial (s : tcpstate) : bool :=
  match s with
  | UIP_CLOSING | UIP_FIN_WAIT_1 | UIP_FIN_WAIT_2 | UIP_TIME_WAIT
  | UIP_LAST_ACK => true
  | _ => false
  end.

(** ** Queues *)

(** Modelled from the spec: the [dq_*] queue primitives are not among the
    sources; following the design notes a queue is the sequence of the
    indices of the records linked on it, head first.  [dq_rem] is the
    primitive for a node that is linked on the queue, and [dq_addlast] the
    primitive for a node that is linked on no queue; the nodes and their
    links are in [Linked] below. *)
Definition dq_queue_t := list nat.

Definition dq_init : dq_queue_t := [].

Definition dq_addlast (node : nat) (queue : dq_queue_t) : dq_queue_t :=
  queue ++ [node].

Definition dq_remfirst (queue : dq_queue_t) : option nat * dq_queue_t :=
  match queue with
  | [] => (None, [])
  | node :: rest => (Some node, rest)
  end.

Fixpoint dq_rem (node : nat) (queue : dq_queue_t) : dq_queue_t :=
  match queue with
  | [] => []
  | n :: rest => if decide (n = node) then rest else n :: dq_rem node rest
  end.

(** ** Outcomes *)

(** A call returns, or halts the system on a failed assertion, or never
    leaves the port-selection loop. *)
Inductive outcome (A : Type) :=
  | Done (a : A)
  | Fatal
  | Diverges.
Arguments Done {A} a.
Arguments Fatal {A}.
Arguments Diverges {A}.

#[global] Instance outcome_ret : MRet outcome := fun A a => Done a.
#[global] Instance outcome_bind : MBind outcome := fun A B f m =>
  match m with
  | Done a => f a
  | Fatal => Fatal
  | Diverges => Diverges
  end.

(** Modelled from the spec: [DEBUGASSERT] is declared outside the sources;
    a failed assertion is fatal. *)
Definition DEBUGASSERT (b : bool) : outcome unit :=
  if b then Done () else Fatal.

Inductive errno := EADDRINUSE | EISCONN.

(** An [int] result that is either a port number or a negated errno. *)
Inductive port_result :=
  | Port (portno : Z)
  | PortErr (e : errno).

(** An [int] result that is either [OK] or a negated errno. *)
Inductive status :=
  | OK
  | ERROR (e : errno).

(** ** Configuration *)

(** What the build and the rest of the stack supply: the [CONFIG_*]
    switches, the constants of uipopt.h, the byte-order conversions and the
    initial sequence number handed out by [uip_tcpinitsequence]. *)
Record config := {
  CONFIG_NET_TCP_CONNS : nat;
  CONFIG_NET_SOLINGER : bool;
  CONFIG_NET_TCP_READAHEAD : bool;
  CONFIG_NET_TCP_WRITE_BUFFERS : bool;
  CONFIG_NET_TCPBACKLOG : bool;
  UIP_RTO : Z;
  UIP_TCP_INITIAL_MSS : Z;
  htons : Z -> Z;
  ntohs : Z -> Z;
  uip_tcpinitsequence : Z
}.

(** The conversions are inverse to each other on 16-bit values. *)
Definition byteorder_ok (cfg : config) : Prop :=
  forall x, 0 <= x < 65536 ->
    0 <= htons cfg x < 65536 /\ ntohs cfg (htons cfg x) = x.

(** Calls made to the collaborators that own callbacks, buffers and
    backlogs, in the order they are made. *)
Inductive hook :=
  | uip_tcpcallbackfree (conn cb : nat)
  | uip_tcpreadahead_release (buf : nat)
  | tcp_wrbuffer_release (buf : nat)
  | uip_backlogdestroy (conn : nat)
  | uip_backlogdelete (parent conn : nat).

(** ** The pool *)

Record pool := mk_pool {
  g_tcp_connections : list uip_conn;
  g_free_tcp_connections : dq_queue_t;
  g_active_tcp_connections : dq_queue_t;
  g_last_tcp_port : Z;
  hooks : list hook
}.

(** [g_tcp_connections[i]] *)
Definition conn_at (p : pool) (i : nat) : uip_conn :=
  g_tcp_connections p !!! i.

Definition set_conn (i : nat) (c : uip_conn) (p : pool) : pool :=
  {| g_tcp_connections := <[i := c]> (g_tcp_connections p);
     g_free_tcp_connections := g_free_tcp_connections p;
     g_active_tcp_connections := g_active_tcp_connections p;
     g_last_tcp_port := g_last_tcp_port p;
     hooks := hooks p |}.

Definition set_free (q : dq_queue_t) (p : pool) : pool :=
  {| g_tcp_connections := g_tcp_connections p;
     g_free_tcp_connections := q;
     g_active_tcp_connections := g_active_tcp_connections p;
     g_last_tcp_port := g_last_tcp_port p;
     hooks := hooks p |}.

Definition set_active (q : dq_queue_t) (p : pool) : pool :=
  {| g_tcp_connections := g_tcp_connections p;
     g_free_tcp_connections := g_free_tcp_connections p;
     g_active_tcp_connections := q;
     g_last_tcp_port := g_last_tcp_port p;
     hooks := hooks p |}.

Definition set_last_tcp_port (v : Z) (p : pool) : pool :=
  {| g_tcp_connections := g_tcp_connections p;
     g_free_tcp_connections := g_free_tcp_connections p;
     g_active_tcp_connections := g_active_tcp_connections p;
     g_last_tcp_port := v;
     hooks := hooks p |}.

Definition call_hooks (hs : list hook) (p : pool) : pool :=
  {| g_tcp_connections := g_tcp_connections p;
     g_free_tcp_connections := g_free_tcp_connections p;
     g_active_tcp_connections := g_active_tcp_connections p;
     g_last_tcp_port := g_last_tcp_port p;
     hooks := hooks p ++ hs |}.

(** ** The functions of tcp_conn.c *)

Section tcp_conn.

Variable cfg : config.

(** [uip_tcplistener]: the first slot of the whole array whose record is
    not closed and has the given local port (network byte order). *)
Fixpoint tcplistener_from (i : nat) (conns : list uip_conn) (portno : Z)
  : option nat :=
  match conns with
  | [] => None
  | conn :: rest =>
      if bool_decide (tcpstateflags conn <> UIP_CLOSED) && (lport conn =? portno)
      then Some i
      else tcplistener_from (S i) rest portno
  end.

Definition uip_tcplistener (p : pool) (portno : Z) : option nat :=
  tcplistener_from 0 (g_tcp_connections p) portno.

(** The [do ... while] loop of [uip_selectport], on the value of
    [g_last_tcp_port]; [++] is on a [uint16_t].  The result is the pair of
    [portno] and the final [g_last_tcp_port]. *)
Fixpoint selectport_loop (p : pool) (fuel : nat) (last : Z) : option (Z * Z) :=
  match fuel with
  | O => None
  | S fuel' =>
      let last1 := (last + 1) mod 65536 in
      let portno := last1 in
      let last2 := if 32000 <=? last1 then 4096 else last1 in
      match uip_tcplistener p (htons cfg last2) with
      | Some _ => selectport_loop p fuel' last2
      | None => Some (portno, last2)
      end
  end.

(** The pool does not change inside the loop, so an iteration depends on
    the 16-bit counter alone: a loop still running after as many rounds as
    the counter has values runs forever. *)
Definition selectport_rounds : nat := Z.to_nat 65536.

Definition uip_selectport (p : pool) (portno : Z)
  : outcome (pool * port_result) :=
  if portno =? 0 then
    match selectport_loop p selectport_rounds (g_last_tcp_port p) with
    | Some (portno', last) => Done (set_last_tcp_port last p, Port portno')
    | None => Diverges
    end
  else
    match uip_tcplistener p portno with
    | Some _ => Done (p, PortErr EADDRINUSE)
    | None => Done (p, Port portno)
    end.

(** [uip_tcpinit], on the zero-filled static array. *)
Definition uip_tcpinit : pool :=
  {| g_tcp_connections :=
       replicate (CONFIG_NET_TCP_CONNS cfg)
                 (set_tcpstateflags UIP_CLOSED conn_zero);
     g_free_tcp_connections := seq 0 (CONFIG_NET_TCP_CONNS cfg);
     g_active_tcp_connections := dq_init;
     g_last_tcp_port := 1024;
     hooks := [] |}.

(** Modelled from the spec: the release hooks of [uip_tcpfree] belong to
    collaborators outside the sources; freeing the callbacks empties the
    chain and destroying the backlog clears it.  [teardown_hooks] lists the
    calls made for the resources attached to [conn], in the order of the
    function, and [torn_down] is the record they leave behind, closed. *)
Definition teardown_hooks (i : nat) (conn : uip_conn) : list hook :=
  map (uip_tcpcallbackfree i) (cb_list conn)
  ++ (if CONFIG_NET_TCP_READAHEAD cfg
      then map uip_tcpreadahead_release (readahead conn) else [])
  ++ (if CONFIG_NET_TCP_WRITE_BUFFERS cfg
      then map tcp_wrbuffer_release (write_q conn)
           ++ map tcp_wrbuffer_release (unacked_q conn)
      else [])
  ++ (if CONFIG_NET_TCPBACKLOG cfg
      then match backlog conn with
           | Some _ => [uip_backlogdestroy i]
           | None => []
           end
           ++ match blparent conn with
              | Some parent => [uip_backlogdelete parent i]
              | None => []
              end
      else []).

Definition torn_down (conn : uip_conn) : uip_conn :=
  {| tcpstateflags := UIP_CLOSED; lport := lport conn; rport := rport conn;
     ripaddr := ripaddr conn; rcvseq := rcvseq conn; sndseq := sndseq conn;
     crefs := crefs conn; sa := sa conn; sv := sv conn; rto := rto conn;
     timer := timer conn; nrtx := nrtx conn; mss := mss conn;
     unacked := unacked conn; expired := expired conn; isn := isn conn;
     sent := sent conn;
     cb_list := [];
     readahead := if CONFIG_NET_TCP_READAHEAD cfg then [] else readahead conn;
     write_q :=
       if CONFIG_NET_TCP_WRITE_BUFFERS cfg then [] else write_q conn;
     unacked_q :=
       if CONFIG_NET_TCP_WRITE_BUFFERS cfg then [] else unacked_q conn;
     backlog := if CONFIG_NET_TCPBACKLOG cfg then None else backlog conn;
     blparent := blparent conn |}.

(** [uip_tcpfree] *)
Definition uip_tcpfree (p : pool) (conn : nat) : outcome pool :=
  _ ← DEBUGASSERT (crefs (conn_at p conn) =? 0);
  let c := conn_at p conn in
  let p1 := call_hooks (teardown_hooks conn c) p in
  let p2 :=
    if bool_decide (tcpstateflags c <> UIP_ALLOCATED)
    then set_active (dq_rem conn (g_active_tcp_connections p1)) p1
    else p1 in
  let p3 := set_conn conn (torn_down c) p2 in
  Done (set_free (dq_addlast conn (g_free_tcp_connections p3)) p3).

(** The scan of the active list in [uip_tcpalloc]: [tmp] runs over the
    list, [conn] is the oldest sacrificial record seen so far. *)
Fixpoint reclaim_scan (p : pool) (tmp : list nat) (conn : option nat)
  : option nat :=
  match tmp with
  | [] => conn
  | t :: rest =>
      let conn' :=
        if sacrificial (tcpstateflags (conn_at p t)) then
          match conn with
          | None => Some t
          | Some c =>
              if timer (conn_at p t) >? timer (conn_at p c)
              then Some t else conn
          end
        else conn in
      reclaim_scan p rest conn'
  end.

(** [uip_tcpalloc] *)
Definition uip_tcpalloc (p : pool) : outcome (pool * option nat) :=
  let '(conn, free) := dq_remfirst (g_free_tcp_connections p) in
  let p := set_free free p in
  '(p, conn) ←
    (if CONFIG_NET_SOLINGER cfg then Done (p, conn)
     else
       match conn with
       | Some _ => Done (p, conn)
       | None =>
           match reclaim_scan p (g_active_tcp_connections p) None with
           | Some victim =>
               p ← uip_tcpfree p victim;
               let '(conn, free) := dq_remfirst (g_free_tcp_connections p) in
               Done (set_free free p, conn)
           | None => Done (p, None)
           end
       end);
  match conn with
  | Some c =>
      Done (set_conn c (set_tcpstateflags UIP_ALLOCATED conn_zero) p, Some c)
  | None => Done (p, None)
  end.

(** The fields of an inbound segment that [uip_tcpaccept] reads; the
    source address is kept as the [in_addr_t] that [uip_ip4addr_conv]
    yields. *)
Record uip_tcpip_hdr := {
  srcipaddr : Z;
  srcport : Z;
  destport : Z;
  seqno : Z
}.

Record sockaddr_in := {
  sin_port : Z;
  sin_addr : Z
}.

(** The record after the field assignments of [uip_tcpaccept]. *)
Definition accepted_conn (c : uip_conn) (buf : uip_tcpip_hdr) : uip_conn :=
  {| tcpstateflags := UIP_SYN_RCVD;
     lport := destport buf; rport := srcport buf;
     ripaddr := srcipaddr buf; rcvseq := seqno buf;
     sndseq := uip_tcpinitsequence cfg; crefs := crefs c;
     sa := 0; sv := 4; rto := UIP_RTO cfg; timer := UIP_RTO cfg;
     nrtx := 0; mss := UIP_TCP_INITIAL_MSS cfg; unacked := 1;
     expired := if CONFIG_NET_TCP_WRITE_BUFFERS cfg then 0 else expired c;
     isn := if CONFIG_NET_TCP_WRITE_BUFFERS cfg then 0 else isn c;
     sent := if CONFIG_NET_TCP_WRITE_BUFFERS cfg then 0 else sent c;
     cb_list := cb_list c;
     readahead := if CONFIG_NET_TCP_READAHEAD cfg then [] else readahead c;
     write_q := if CONFIG_NET_TCP_WRITE_BUFFERS cfg then [] else write_q c;
     unacked_q :=
       if CONFIG_NET_TCP_WRITE_BUFFERS cfg then [] else unacked_q c;
     backlog := backlog c; blparent := blparent c |}.

(** [uip_tcpaccept] *)
Definition uip_tcpaccept (p : pool) (buf : uip_tcpip_hdr)
  : outcome (pool * option nat) :=
  '(p, conn) ← uip_tcpalloc p;
  match conn with
  | Some i =>
      let p := set_conn i (accepted_conn (conn_at p i) buf) p in
      Done (set_active (dq_addlast i (g_active_tcp_connections p)) p, Some i)
  | None => Done (p, None)
  end.

(** [uip_tcpbind]; [conn] is dereferenced without a check. *)
Definition uip_tcpbind (p : pool) (conn : nat) (addr : sockaddr_in)
  : outcome (pool * status) :=
  '(p, port) ← uip_selectport p (ntohs cfg (sin_port addr));
  match port with
  | PortErr e => Done (p, ERROR e)
  | Port _ =>
      Done (set_conn conn (set_lport (sin_port addr) (conn_at p conn)) p, OK)
  end.

(** The record after the field assignments of [uip_tcpconnect], [port]
    being what [uip_selectport] returned. *)
Definition connected_conn (c : uip_conn) (port : Z) (addr : sockaddr_in)
  : uip_conn :=
  {| tcpstateflags := UIP_SYN_SENT;
     lport := htons cfg (port mod 65536);
     rport := sin_port addr; ripaddr := sin_addr addr;
     rcvseq := rcvseq c; sndseq := uip_tcpinitsequence cfg;
     crefs := crefs c;
     sa := 0; sv := 16; rto := UIP_RTO cfg; timer := 1;
     nrtx := 0; mss := UIP_TCP_INITIAL_MSS cfg; unacked := 1;
     expired := if CONFIG_NET_TCP_WRITE_BUFFERS cfg then 0 else expired c;
     isn := if CONFIG_NET_TCP_WRITE_BUFFERS cfg then 0 else isn c;
     sent := if CONFIG_NET_TCP_WRITE_BUFFERS cfg then 0 else sent c;
     cb_list := cb_list c;
     readahead := if CONFIG_NET_TCP_READAHEAD cfg then [] else readahead c;
     write_q := if CONFIG_NET_TCP_WRITE_BUFFERS cfg then [] else write_q c;
     unacked_q :=
       if CONFIG_NET_TCP_WRITE_BUFFERS cfg then [] else unacked_q c;
     backlog := backlog c; blparent := blparent c |}.

(** [uip_tcpconnect]; [conn] may be the null pointer. *)
Definition uip_tcpconnect (p : pool) (conn : option nat) (addr : sockaddr_in)
  : outcome (pool * status) :=
  match conn with
  | None => Done (p, ERROR EISCONN)
  | Some i =>
      if bool_decide (tcpstateflags (conn_at p i) <> UIP_ALLOCATED)
      then Done (p, ERROR EISCONN)
      else
        '(p, port) ← uip_selectport p (ntohs cfg (lport (conn_at p i)));
        match port with
        | PortErr e => Done (p, ERROR e)
        | Port port =>
            let p := set_conn i (connected_conn (conn_at p i) port addr) p in
            Done (set_active (dq_addlast i (g_active_tcp_connections p)) p, OK)
        end
  end.

End tcp_conn.

(** ** Driving the pool *)

(** [n] calls of [uip_tcpalloc] in a row, with what each returned. *)
Fixpoint alloc_many (cfg : config) (n : nat) (p : pool)
  : outcome (pool * list (option nat)) :=
  match n with
  | O => Done (p, [])
  | S n' =>
      '(p, conn) ← uip_tcpalloc cfg p;
      '(p, conns) ← alloc_many cfg n' p;
      Done (p, conn :: conns)
  end.

(** The operations offered to the socket layer and to segment
    processing, and one call of each on the pool. *)
Inductive operation :=
  | op_alloc
  | op_free (conn : nat)
  | op_accept (buf : uip_tcpip_hdr)
  | op_connect (conn : option nat) (addr : sockaddr_in)
  | op_bind (conn : nat) (addr : sockaddr_in).

Definition run (cfg : config) (p : pool) (o : operation) : outcome pool :=
  match o with
  | op_alloc => '(p', _) ← uip_tcpalloc cfg p; Done p'
  | op_free conn => uip_tcpfree cfg p conn
  | op_accept buf => '(p', _) ← uip_tcpaccept cfg p buf; Done p'
  | op_connect conn addr => '(p', _) ← uip_tcpconnect cfg p conn addr; Done p'
  | op_bind conn addr => '(p', _) ← uip_tcpbind cfg p conn addr; Done p'
  end.

(** A non-null record pointer points into the array. *)
Definition pointers_valid (p : pool) (o : operation) : Prop :=
  match o with
  | op_free conn | op_bind conn _ | op_connect (Some conn) _ =>
      (conn < length (g_tcp_connections p))%nat
  | _ => True
  end.

(** The pools reached from [uip_tcpinit] by calls that return, where
    [may_free p conn] says which records a caller may release in [p]. *)
Inductive reachable (cfg : config) (may_free : pool -> nat -> Prop)
  : pool -> Prop :=
  | reachable_init : reachable cfg may_free (uip_tcpinit cfg)
  | reachable_run p o p' :
      reachable cfg may_free p ->
      pointers_valid p o ->
      (forall conn, o = op_free conn -> may_free p conn) ->
      run cfg p o = Done p' ->
      reachable cfg may_free p'.

(** Any record may be released. *)
Definition free_any (p : pool) (conn : nat) : Prop := True.

(** Only a record that is in use may be released. *)
Definition free_in_use (p : pool) (conn : nat) : Prop :=
  tcpstateflags (conn_at p conn) <> UIP_CLOSED.

(** Where the state of a record says it is: on the free list exactly when
    closed, on no list when allocated, on the active list otherwise, and
    never on both. *)
Definition records_in_place (p : pool) : Prop :=
  forall i c, g_tcp_connections p !! i = Some c ->
    (i ∈ g_free_tcp_connections p <-> tcpstateflags c = UIP_CLOSED) /\
    (tcpstateflags c = UIP_ALLOCATED ->
     (i ∉ g_free_tcp_connections p) /\ (i ∉ g_active_tcp_connections p)) /\
    (tcpstateflags c <> UIP_CLOSED -> tcpstateflags c <> UIP_ALLOCATED ->
     i ∈ g_active_tcp_connections p) /\
    ~ (i ∈ g_free_tcp_connections p /\ i ∈ g_active_tcp_connections p).

(** A port is in use when a record of the array that is not closed has it
    as its [lport]. *)
Definition port_in_use (p : pool) (portno : Z) : Prop :=
  exists i c, g_tcp_connections p !! i = Some c /\
    tcpstateflags c <> UIP_CLOSED /\ lport c = portno.

(** The array after the records [conns] have been handed out in turn. *)
Fixpoint allocated_all (conns : list nat) (l : list uip_conn)
  : list uip_conn :=
  match conns with
  | [] => l
  | c :: rest =>
      allocated_all rest (<[c := set_tcpstateflags UIP_ALLOCATED conn_zero]> l)
  end.

(** What the operations preserve: the queues hold each record at most once
    and only records of the array, and every record is where its state
    says. *)
Record pool_inv (p : pool) : Prop := {
  inv_free_nodup : NoDup (g_free_tcp_connections p);
  inv_active_nodup : NoDup (g_active_tcp_connections p);
  inv_free_valid : forall i, i ∈ g_free_tcp_connections p ->
                     (i < length (g_tcp_connections p))%nat;
  inv_active_valid : forall i, i ∈ g_active_tcp_connections p ->
                       (i < length (g_tcp_connections p))%nat;
  inv_in_place : records_in_place p
}.

(** One round of the loop of [uip_selectport] on the counter: increment on
    16 bits, then back to 4096 from 32000 on. *)
Definition next_port (last : Z) : Z :=
  let last1 := (last + 1) mod 65536 in
  if 32000 <=? last1 then 4096 else last1.

(** ** Lookup *)

(** The test of [uip_tcpactive] on one record: not closed, and local port,
    remote port and remote address are those of the segment. *)
Definition segment_matches (conn : uip_conn) (buf : uip_tcpip_hdr) : bool :=
  bool_decide (tcpstateflags conn <> UIP_CLOSED)
  && (destport buf =? lport conn) && (srcport buf =? rport conn)
  && (srcipaddr buf =? ripaddr conn).

(** [uip_tcpactive]: [conn] runs from the head of the active list along the
    forward links. *)
Fixpoint tcpactive_from (p : pool) (conn : list nat) (buf : uip_tcpip_hdr)
  : option nat :=
  match conn with
  | [] => None
  | c :: rest =>
      if segment_matches (conn_at p c) buf then Some c
      else tcpactive_from p rest buf
  end.

Definition uip_tcpactive (p : pool) (buf : uip_tcpip_hdr) : option nat :=
  tcpactive_from p (g_active_tcp_connections p) buf.

(** Modelled from the spec: [node.flink], the forward link of a record, is
    kept by the [dq_*] primitives, which are not among the sources.  It is
    the record that follows on the queue the record is linked on, and null
    for the last record of a queue and for a record on no queue. *)
Fixpoint flink_in (queue : dq_queue_t) (node : nat) : option nat :=
  match queue with
  | [] => None
  | n :: rest => if decide (n = node) then head rest else flink_in rest node
  end.

Definition node_flink (p : pool) (conn : nat) : option nat :=
  if decide (conn ∈ g_active_tcp_connections p)
  then flink_in (g_active_tcp_connections p) conn
  else flink_in (g_free_tcp_connections p) conn.

(** [uip_nexttcpconn] *)
Definition uip_nexttcpconn (p : pool) (conn : option nat) : option nat :=
  match conn with
  | None => head (g_active_tcp_connections p)
  | Some c => node_flink p c
  end.

(** The loop [while ((conn = uip_nexttcpconn(conn)))] of a caller, for at
    most [n] rounds: the records it visits, in order. *)
Fixpoint nexttcpconn_walk (p : pool) (n : nat) (conn : option nat)
  : list nat :=
  match n with
  | O => []
  | S n' =>
      match uip_nexttcpconn p conn with
      | Some c => c :: nexttcpconn_walk p n' (Some c)
      | None => []
      end
  end.

(** ** The clock divider of arch/arm/src/samv7/sam_qspi_spi.c *)

(** The fields of [struct sam_spics_s] that [qspi_spi_setfrequency] keeps:
    the frequency last requested and the frequency it gave. *)
Record sam_spics_s := {
  frequency : Z;
  actual : Z
}.

(** What the chip and board headers supply: the peripheral clock and the
    places of the fields in the SCR and MR registers. *)
Record qspi_config := {
  SAM_QSPI_CLOCK : Z;
  SAM_QSPI_SCR_OFFSET : Z;
  SAM_QSPI_MR_OFFSET : Z;
  QSPI_SCR_SCBR_MASK : Z;
  QSPI_SCR_DLYBS_MASK : Z;
  QSPI_SCR_SCBR_SHIFT : Z;
  QSPI_MR_DLYBCT_MASK : Z;
  QSPI_MR_DLYBCT_SHIFT : Z
}.

(** Arithmetic on [uint32_t]. *)
Definition u32 (x : Z) : Z := x mod 4294967296.
Definition u32_not (x : Z) : Z := Z.lxor x 4294967295.

(** The divider [scbr] of [qspi_spi_setfrequency], with its two range
    checks. *)
Definition qspi_scbr (q : qspi_config) (freq : Z) : Z :=
  let scbr := u32 (freq + SAM_QSPI_CLOCK q - 1) / freq in
  if scbr <? 1 then 1 else if scbr >? 256 then 256 else scbr.

(** [qspi_spi_setfrequency].  [scr] and [mr] are the values that
    [qspi_getreg] reads from the SCR and MR registers; the result is the
    new device state, the register writes in the order they are made (offset
    and value) and the frequency returned.  Dividing by a requested
    frequency of 0 has no defined result. *)
Definition qspi_spi_setfrequency (q : qspi_config) (spics : sam_spics_s)
    (scr mr : Z) (freq : Z) : option (sam_spics_s * list (Z * Z) * Z) :=
  if frequency spics =? freq then Some (spics, [], actual spics)
  else if freq =? 0 then None
  else
    let scbr := qspi_scbr q freq in
    let regval :=
      Z.land scr (u32_not (Z.lor (QSPI_SCR_SCBR_MASK q)
                                 (QSPI_SCR_DLYBS_MASK q))) in
    let regval :=
      Z.lor regval (u32 (Z.shiftl (scbr - 1) (QSPI_SCR_SCBR_SHIFT q))) in
    let dlybct := SAM_QSPI_CLOCK q / 200000 / 32 in
    let regval' := Z.land mr (u32_not (QSPI_MR_DLYBCT_MASK q)) in
    let regval' :=
      Z.lor regval' (u32 (Z.shiftl dlybct (QSPI_MR_DLYBCT_SHIFT q))) in
    let actual := SAM_QSPI_CLOCK q / scbr in
    Some ({| frequency := freq; actual := actual |},
          [(SAM_QSPI_SCR_OFFSET q, regval); (SAM_QSPI_MR_OFFSET q, regval')],
          actual).

(** ** Two builds *)

(** [htons] and [ntohs] where the host is little-endian: the two bytes
    change places.  Where it is big-endian they are the identity. *)
Definition swap16 (x : Z) : Z :=
  Z.lor (Z.shiftl (Z.land x 255) 8) (Z.land (Z.shiftr x 8) 255).

(** [test] holds of the [n] numbers from [x] on. *)
Fixpoint all_from (test : Z -> bool) (n : nat) (x : Z) : bool :=
  match n with
  | O => true
  | S n' => test x && all_from test n' (x + 1)
  end.

Definition build_le (conns : nat) (linger : bool) : config :=
  {| CONFIG_NET_TCP_CONNS := conns; CONFIG_NET_SOLINGER := linger;
     CONFIG_NET_TCP_READAHEAD := true; CONFIG_NET_TCP_WRITE_BUFFERS := true;
     CONFIG_NET_TCPBACKLOG := true; UIP_RTO := 3; UIP_TCP_INITIAL_MSS := 536;
     htons := swap16; ntohs := swap16; uip_tcpinitsequence := 0 |}.

Definition build_be (conns : nat) (linger : bool) : config :=
  {| CONFIG_NET_TCP_CONNS := conns; CONFIG_NET_SOLINGER := linger;
     CONFIG_NET_TCP_READAHEAD := true; CONFIG_NET_TCP_WRITE_BUFFERS := true;
     CONFIG_NET_TCPBACKLOG := true; UIP_RTO := 3; UIP_TCP_INITIAL_MSS := 536;
     htons := fun x => x; ntohs := fun x => x; uip_tcpinitsequence := 0 |}.

(** ** The queues as linked nodes *)

(** Modelled from the spec: the free and the active list are intrusive
    doubly-linked queues with raw back-pointers, and the [dq_*] primitives
    that keep them are not among the sources.  Every record carries one
    node, [conn->node], with a forward and a backward link; a queue is a
    head and a tail pointer; a primitive follows and rewrites the links of
    the node it is given, whatever queue that node is linked on.  The index
    sequences of the section on queues above are what a walk from the head
    along the forward links reads: [dq_rem] on a sequence is the primitive
    for a node that is linked on that queue, and [dq_addlast] on a sequence
    is the primitive for a node that is linked on no queue.  A write
    through a null pointer has no defined result and is counted as
    fatal. *)
Module Linked.

Record dq_entry_t := mk_entry {
  flink : option nat;
  blink : option nat
}.

Record dq_queue_t := mk_queue {
  head : option nat;
  tail : option nat
}.

#[global] Instance dq_entry_inhabited : Inhabited dq_entry_t :=
  populate (mk_entry None None).

(** [node->flink = v] and [node->blink = v] for the node of record [i]. *)
Definition set_flink (v : option nat) (i : nat) (ns : list dq_entry_t)
  : list dq_entry_t :=
  <[i := {| flink := v; blink := blink (ns !!! i) |}]> ns.

Definition set_blink (v : option nat) (i : nat) (ns : list dq_entry_t)
  : list dq_entry_t :=
  <[i := {| flink := flink (ns !!! i); blink := v |}]> ns.

Definition dq_init : dq_queue_t := {| head := None; tail := None |}.

(** [dq_addlast]: the node gets a null forward link and the tail as its
    backward link; it becomes head and tail of an empty queue, and else the
    forward link of the old tail and the new tail. *)
Definition dq_addlast (node : nat) (ns : list dq_entry_t) (queue : dq_queue_t)
  : option (list dq_entry_t * dq_queue_t) :=
  let ns := <[node := {| flink := None; blink := tail queue |}]> ns in
  match head queue with
  | None => Some (ns, {| head := Some node; tail := Some node |})
  | Some _ =>
      match tail queue with
      | Some t =>
          Some (set_flink (Some node) t ns,
                {| head := head queue; tail := Some node |})
      | None => None
      end
  end.

(** [dq_remfirst]: the head is unlinked and returned. *)
Definition dq_remfirst (ns : list dq_entry_t) (queue : dq_queue_t)
  : option nat * list dq_entry_t * dq_queue_t :=
  match head queue with
  | None => (None, ns, queue)
  | Some ret =>
      let '(ns, queue) :=
        match flink (ns !!! ret) with
        | None => (ns, {| head := None; tail := None |})
        | Some next =>
            (set_blink None next ns, {| head := Some next; tail := tail queue |})
        end in
      (Some ret, <[ret := {| flink := None; blink := None |}]> ns, queue)
  end.

(** [dq_rem]: the neighbours named by the links of the node, or else the
    head and the tail of [queue], are joined, and the links of the node are
    cleared. *)
Definition dq_rem (node : nat) (ns : list dq_entry_t) (queue : dq_queue_t)
  : list dq_entry_t * dq_queue_t :=
  let prev := blink (ns !!! node) in
  let next := flink (ns !!! node) in
  let '(ns, hd) :=
    match prev with
    | None => (ns, next)
    | Some pv => (set_flink next pv ns, head queue)
    end in
  let '(ns, tl) :=
    match next with
    | None => (ns, prev)
    | Some nx => (set_blink prev nx ns, tail queue)
    end in
  (<[node := {| flink := None; blink := None |}]> ns,
   {| head := hd; tail := tl |}).

(** The records met on a walk along the forward links, at most [fuel] of
    them. *)
Fixpoint dq_walk (fuel : nat) (ns : list dq_entry_t) (cur : option nat)
  : list nat :=
  match fuel, cur with
  | S fuel', Some n => n :: dq_walk fuel' ns (flink (ns !!! n))
  | _, _ => []
  end.

(** The pool, with the node of record [i] at [node !! i]. *)
Record pool := mk_pool {
  g_tcp_connections : list uip_conn;
  node : list dq_entry_t;
  g_free_tcp_connections : dq_queue_t;
  g_active_tcp_connections : dq_queue_t;
  g_last_tcp_port : Z;
  hooks : list hook
}.

Definition conn_at (p : pool) (i : nat) : uip_conn :=
  g_tcp_connections p !!! i.

(** What a walk from the head of either queue reads; a walk that is longer
    than the array has met a node twice. *)
Definition free_list (p : pool) : list nat :=
  dq_walk (S (length (node p))) (node p) (head (g_free_tcp_connections p)).

Definition active_list (p : pool) : list nat :=
  dq_walk (S (length (node p))) (node p) (head (g_active_tcp_connections p)).

Definition through {A} (r : option A) : outcome A :=
  match r with
  | Some a => Done a
  | None => Fatal
  end.

Section tcp_conn.

Variable cfg : config.

(** The loop of [uip_tcpinit] over the records [todo]. *)
Fixpoint tcpinit_loop (todo : list nat) (p : pool) : outcome pool :=
  match todo with
  | [] => Done p
  | i :: rest =>
      '(ns, free) ← through (dq_addlast i (node p) (g_free_tcp_connections p));
      tcpinit_loop rest
        {| g_tcp_connections :=
             <[i := set_tcpstateflags UIP_CLOSED (conn_at p i)]>
               (g_tcp_connections p);
           node := ns;
           g_free_tcp_connections := free;
           g_active_tcp_connections := g_active_tcp_connections p;
           g_last_tcp_port := g_last_tcp_port p;
           hooks := hooks p |}
  end.

(** [uip_tcpinit], on the zero-filled static array. *)
Definition uip_tcpinit : outcome pool :=
  p ← tcpinit_loop (seq 0 (CONFIG_NET_TCP_CONNS cfg))
        {| g_tcp_connections := replicate (CONFIG_NET_TCP_CONNS cfg) conn_zero;
           node := replicate (CONFIG_NET_TCP_CONNS cfg) (mk_entry None None);
           g_free_tcp_connections := dq_init;
           g_active_tcp_connections := dq_init;
           g_last_tcp_port := 0;
           hooks := [] |};
  Done {| g_tcp_connections := g_tcp_connections p;
          node := node p;
          g_free_tcp_connections := g_free_tcp_connections p;
          g_active_tcp_connections := g_active_tcp_connections p;
          g_last_tcp_port := 1024;
          hooks := hooks p |}.

(** [uip_tcpfree] *)
Definition uip_tcpfree (p : pool) (conn : nat) : outcome pool :=
  _ ← DEBUGASSERT (crefs (conn_at p conn) =? 0);
  let c := conn_at p conn in
  let '(ns, active) :=
    if bool_decide (tcpstateflags c <> UIP_ALLOCATED)
    then dq_rem conn (node p) (g_active_tcp_connections p)
    else (node p, g_active_tcp_connections p) in
  '(ns, free) ← through (dq_addlast conn ns (g_free_tcp_connections p));
  Done {| g_tcp_connections := <[conn := torn_down cfg c]> (g_tcp_connections p);
          node := ns;
          g_free_tcp_connections := free;
          g_active_tcp_connections := active;
          g_last_tcp_port := g_last_tcp_port p;
          hooks := hooks p ++ teardown_hooks cfg conn c |}.

End tcp_conn.

End Linked.

(** ** The sequence that linked nodes make *)

(** The first of [l], or [next] where [l] is empty; the last of [l], or
    [prev] where [l] is empty. *)
Definition first_or (l : list nat) (next : option nat) : option nat :=
  match l with
  | [] => next
  | m :: _ => Some m
  end.

Fixpoint last_or (l : list nat) (prev : option nat) : option nat :=
  match l with
  | [] => prev
  | n :: rest => last_or rest (Some n)
  end.

(** The nodes of the records [l] are linked in the order of [l]: the
    backward link of each names the one before it, [prev] for the first,
    and the forward link of each names the one after it, [next] for the
    last. *)
Fixpoint dq_segment (ns : list Linked.dq_entry_t) (prev : option nat)
    (l : list nat) (next : option nat) : Prop :=
  match l with
  | [] => True
  | n :: rest =>
      Linked.blink (ns !!! n) = prev /\
      Linked.flink (ns !!! n) = first_or rest next /\
      dq_segment ns (Some n) rest next
  end.

(** The queue [q] links exactly the records [l], head first. *)
Definition links_queue (ns : list Linked.dq_entry_t) (q : Linked.dq_queue_t)
    (l : list nat) : Prop :=
  Linked.head q = first_or l None /\
  Linked.tail q = last_or l None /\
  dq_segment ns None l None.

(** The linked pool [lp] holds what [p] holds, its queues linking the
    records that the sequences of [p] list, in their order. *)
Definition represents (lp : Linked.pool) (p : pool) : Prop :=
  Linked.g_tcp_connections lp = g_tcp_connections p /\
  length (Linked.node lp) = length (g_tcp_connections p) /\
  links_queue (Linked.node lp) (Linked.g_free_tcp_connections lp)
              (g_free_tcp_connections p) /\
  links_queue (Linked.node lp) (Linked.g_active_tcp_connections lp)
              (g_active_tcp_connections p) /\
  Linked.g_last_tcp_port lp = g_last_tcp_port p /\
  Linked.hooks lp = hooks p.

(** ** Basic facts about records, queues and outcomes *)

Lemma conn_at_set_conn_eq p i c :
  (i < length (g_tcp_connections p))%nat -> conn_at (set_conn i c p) i = c.
Proof.
  intros Hi. unfold conn_at, set_conn; simpl.
  by apply list_lookup_total_insert_eq.
Qed.

Lemma conn_at_set_conn_ne p i j c :
  i <> j -> conn_at (set_conn i c p) j = conn_at p j.
Proof.
  intros Hij. unfold conn_at, set_conn; simpl.
  by apply list_lookup_total_insert_ne.
Qed.

Lemma conn_at_lookup p i c :
  g_tcp_connections p !! i = Some c -> conn_at p i = c.
Proof. intros H. unfold conn_at. by apply list_lookup_total_correct. Qed.

Lemma lookup_conn_at p i :
  (i < length (g_tcp_connections p))%nat ->
  g_tcp_connections p !! i = Some (conn_at p i).
Proof. intros H. unfold conn_at. by apply list_lookup_lookup_total_lt. Qed.

Lemma dq_rem_elem_of node queue j :
  j ∈ dq_rem node queue -> j ∈ queue.
Proof.
  induction queue as [|n rest IH]; simpl; [done|].
  case_decide; intros Hj.
  - by apply elem_of_cons; right.
  - apply elem_of_cons in Hj as [->|Hj]; apply elem_of_cons; auto.
Qed.

Lemma dq_rem_other node queue j :
  j <> node -> j ∈ queue -> j ∈ dq_rem node queue.
Proof.
  intros Hne. induction queue as [|n rest IH]; simpl; [done|].
  intros [->|Hj]%elem_of_cons; case_decide; subst;
    try done; apply elem_of_cons; auto.
Qed.

Lemma dq_rem_absent node queue :
  node ∉ queue -> dq_rem node queue = queue.
Proof.
  induction queue as [|n rest IH]; simpl; [done|].
  intros Hn. apply not_elem_of_cons in Hn as [Hne Hn].
  case_decide; [congruence|]. by rewrite IH.
Qed.

Lemma dq_rem_NoDup node queue :
  NoDup queue -> NoDup (dq_rem node queue) /\ node ∉ dq_rem node queue.
Proof.
  induction queue as [|n rest IH]; simpl.
  - intros _. split; [constructor | apply not_elem_of_nil].
  - intros [Hn Hrest]%NoDup_cons. case_decide; subst.
    + done.
    + destruct (IH Hrest) as [IH1 IH2]. split.
      * apply NoDup_cons. split; [|done].
        intros Hin. by apply Hn, (dq_rem_elem_of node).
      * apply not_elem_of_cons. split; [congruence | done].
Qed.

Lemma dq_rem_middle node l1 l2 :
  node ∉ l1 -> dq_rem node (l1 ++ node :: l2) = l1 ++ l2.
Proof.
  induction l1 as [|n l1 IH]; simpl; intros Hn.
  - by case_decide.
  - apply not_elem_of_cons in Hn as [Hne Hn].
    case_decide; [congruence|]. by rewrite IH.
Qed.

(** ** The in-use check *)

Lemma tcplistener_from_None i conns portno :
  tcplistener_from i conns portno = None <->
  forall j c, conns !! j = Some c ->
    tcpstateflags c = UIP_CLOSED \/ lport c <> portno.
Proof.
  revert i. induction conns as [|c0 rest IH]; intros i; simpl.
  - split; [intros _ j c Hj; by rewrite lookup_nil in Hj | done].
  - destruct (bool_decide (tcpstateflags c0 <> UIP_CLOSED)
              && (lport c0 =? portno)) eqn:Hb.
    + split; [done|]. intros H. exfalso.
      apply andb_true_iff in Hb as [Hs Hp].
      apply bool_decide_eq_true in Hs. apply Z.eqb_eq in Hp.
      destruct (H 0%nat c0 eq_refl); congruence.
    + rewrite IH. split.
      * intros H [|j] c Hj; simpl in Hj.
        -- injection Hj as <-.
           apply andb_false_iff in Hb as [Hs|Hp].
           ++ apply bool_decide_eq_false in Hs. left.
              by destruct (decide (tcpstateflags c0 = UIP_CLOSED)).
           ++ right. by apply Z.eqb_neq.
        -- by apply (H j).
      * intros H j c Hj. by apply (H (S j)).
Qed.

Lemma tcplistener_from_Some i conns portno k :
  tcplistener_from i conns portno = Some k ->
  exists j c, k = (i + j)%nat /\ conns !! j = Some c /\
    tcpstateflags c <> UIP_CLOSED /\ lport c = portno.
Proof.
  revert i. induction conns as [|c0 rest IH]; intros i; simpl; [done|].
  destruct (bool_decide (tcpstateflags c0 <> UIP_CLOSED)
            && (lport c0 =? portno)) eqn:Hb.
  - intros [= <-]. exists 0%nat, c0.
    apply andb_true_iff in Hb as [Hs Hp].
    apply bool_decide_eq_true in Hs. apply Z.eqb_eq in Hp.
    repeat split; [lia | done | done].
  - intros H. apply IH in H as (j & c & -> & Hj & Hs & Hp).
    exists (S j), c. repeat split; [lia | done | done | done].
Qed.

Lemma uip_tcplistener_in_use p portno :
  (exists k, uip_tcplistener p portno = Some k) <-> port_in_use p portno.
Proof.
  unfold uip_tcplistener, port_in_use. split.
  - intros [k Hk]. apply tcplistener_from_Some in Hk as (j & c & _ & H).
    by exists j, c.
  - intros (i & c & Hi & Hs & Hp).
    destruct (tcplistener_from 0 (g_tcp_connections p) portno) eqn:E;
      [by eexists|].
    exfalso. rewrite tcplistener_from_None in E.
    destruct (E i c Hi); congruence.
Qed.

Lemma uip_tcplistener_free p portno :
  uip_tcplistener p portno = None <-> ~ port_in_use p portno.
Proof.
  rewrite <- uip_tcplistener_in_use. split.
  - intros H [k Hk]. congruence.
  - intros H. destruct (uip_tcplistener p portno) eqn:E; [|done].
    exfalso. apply H. by eexists.
Qed.

(** ** Connecting through a null pointer *)

(** C10: [uip_tcpconnect] called with a null record returns [-EISCONN], the
    error it also gives for a record that is not [UIP_ALLOCATED]; the pool
    is handed back as it was, whatever it contains. *)
Theorem uip_tcpconnect_null cfg p addr :
  uip_tcpconnect cfg p None addr = Done (p, ERROR EISCONN).
Proof. reflexivity. Qed.

(** ** Release *)

Lemma uip_tcpfree_assert_fails cfg p conn :
  crefs (conn_at p conn) <> 0 -> uip_tcpfree cfg p conn = Fatal.
Proof.
  intros Hc. unfold uip_tcpfree. apply Z.eqb_neq in Hc. by rewrite Hc.
Qed.

(** C5: releasing a record whose [crefs] is not zero fails the assertion:
    [uip_tcpfree] has no resulting pool, so the record is neither torn down
    nor put on the free list; the reclamation inside [uip_tcpalloc], which
    releases through the same function, halts in the same way instead of
    handing the record out again. *)
Theorem uip_tcpfree_crefs_nonzero cfg p conn :
  crefs (conn_at p conn) <> 0 ->
  uip_tcpfree cfg p conn = Fatal /\
  (CONFIG_NET_SOLINGER cfg = false ->
   g_free_tcp_connections p = [] ->
   reclaim_scan p (g_active_tcp_connections p) None = Some conn ->
   uip_tcpalloc cfg p = Fatal).
Proof.
  intros Hc.
  assert (Hfree : forall q, conn_at q conn = conn_at p conn ->
                            uip_tcpfree cfg q conn = Fatal).
  { intros q Hq. unfold uip_tcpfree. rewrite Hq.
    apply Z.eqb_neq in Hc. by rewrite Hc. }
  split; [by apply Hfree|].
  intros Hl Hf Hscan. unfold uip_tcpalloc.
  rewrite Hf, Hl. simpl.
  replace (set_free [] p) with p by (destruct p; simpl in *; by subst).
  rewrite Hscan. simpl. by rewrite Hfree.
Qed.

Lemma uip_tcpfree_crefs_nonzero_witness :
  let cfg := build_be 1 false in
  let p := {| g_tcp_connections :=
                [mk_conn UIP_TIME_WAIT 80 1025 1 0 0 1 0 4 3 120 0 536 0 0 0
                         0 [] [] [] [] None None];
              g_free_tcp_connections := [];
              g_active_tcp_connections := [0%nat];
              g_last_tcp_port := 1024; hooks := [] |} in
  uip_tcpfree cfg p 0 = Fatal /\ uip_tcpalloc cfg p = Fatal.
Proof.
  intros cfg p.
  destruct (uip_tcpfree_crefs_nonzero cfg p 0%nat) as [H1 H2].
  - vm_compute. discriminate.
  - split; [exact H1 | apply H2; reflexivity].
Defined.

(** The pool that [uip_tcpfree] leaves when the assertion holds. *)
Lemma uip_tcpfree_Done cfg p conn :
  crefs (conn_at p conn) = 0 ->
  uip_tcpfree cfg p conn =
  Done {| g_tcp_connections :=
            <[conn := torn_down cfg (conn_at p conn)]> (g_tcp_connections p);
          g_free_tcp_connections := g_free_tcp_connections p ++ [conn];
          g_active_tcp_connections :=
            if bool_decide (tcpstateflags (conn_at p conn) <> UIP_ALLOCATED)
            then dq_rem conn (g_active_tcp_connections p)
            else g_active_tcp_connections p;
          g_last_tcp_port := g_last_tcp_port p;
          hooks := hooks p ++ teardown_hooks cfg conn (conn_at p conn) |}.
Proof.
  intros Hc. unfold uip_tcpfree. rewrite Hc. simpl.
  by destruct (bool_decide (tcpstateflags (conn_at p conn) <> UIP_ALLOCATED)).
Qed.

(** ** Port selection *)

(** C8: where the host is little-endian the check of a requested port
    compares the host-order argument with the [lport] field, which is kept
    in network order, so it misses a port that is held and refuses one that
    is not.  Two records are allocated from a fresh pool of two and the
    first is bound to port 8080, which leaves [htons 8080 = 36895] in its
    [lport].  Then [uip_selectport 8080] returns 8080 although record 0 is
    not closed and holds port 8080, and a second [uip_tcpbind] to port 8080
    returns [OK], so that two records in use hold the same local port;
    [uip_selectport 36895] fails with [EADDRINUSE] although no record holds
    port 36895. *)
Theorem uip_selectport_host_order_check :
  let cfg := build_le 2 false in
  let addr := {| sin_port := htons cfg 8080; sin_addr := 0 |} in
  exists p2 p3 p4,
    alloc_many cfg 2 (uip_tcpinit cfg) = Done (p2, [Some 0%nat; Some 1%nat]) /\
    uip_tcpbind cfg p2 0 addr = Done (p3, OK) /\
    tcpstateflags (conn_at p3 0) = UIP_ALLOCATED /\
    lport (conn_at p3 0) = htons cfg 8080 /\
    htons cfg 8080 = 36895 /\
    uip_selectport cfg p3 8080 = Done (p3, Port 8080) /\
    uip_tcpbind cfg p3 1 addr = Done (p4, OK) /\
    tcpstateflags (conn_at p4 1) = UIP_ALLOCATED /\
    lport (conn_at p4 1) = lport (conn_at p4 0) /\
    uip_selectport cfg p3 36895 = Done (p3, PortErr EADDRINUSE) /\
    (forall i c, g_tcp_connections p3 !! i = Some c ->
       lport c <> htons cfg 36895).
Proof.
  intros cfg addr. do 3 eexists.
  split; [vm_compute; reflexivity|].
  split; [vm_compute; reflexivity|].
  split; [reflexivity|].
  split; [reflexivity|].
  split; [reflexivity|].
  split; [vm_compute; reflexivity|].
  split; [vm_compute; reflexivity|].
  split; [reflexivity|].
  split; [reflexivity|].
  split; [vm_compute; reflexivity|].
  intros i c Hi.
  destruct i as [|[|i]]; simpl in Hi; try discriminate;
    injection Hi as <-; vm_compute; discriminate.
Qed.

(** [uip_selectport] touches nothing but [g_last_tcp_port]. *)
Lemma uip_selectport_frame cfg p portno p' r :
  uip_selectport cfg p portno = Done (p', r) ->
  p' = set_last_tcp_port (g_last_tcp_port p') p.
Proof.
  unfold uip_selectport. destruct (portno =? 0).
  - destruct (selectport_loop cfg p selectport_rounds (g_last_tcp_port p))
      as [[portno' last]|]; [|done].
    by intros [= <- <-].
  - destruct (uip_tcplistener p portno); intros [= <- <-]; by destruct p.
Qed.

Lemma conn_at_set_last_tcp_port v p i :
  conn_at (set_last_tcp_port v p) i = conn_at p i.
Proof. reflexivity. Qed.

(** ** Connect *)

(** C7: [uip_tcpconnect] on a record that is not [UIP_ALLOCATED] fails with
    [EISCONN] and changes nothing, and it fails so for no other record; when
    it succeeds the record was [UIP_ALLOCATED], is now [UIP_SYN_SENT] and has
    been appended to the active list, and every further connect on the same
    record fails with [EISCONN]. *)
Theorem uip_tcpconnect_once cfg p i addr :
  (i < length (g_tcp_connections p))%nat ->
  (tcpstateflags (conn_at p i) <> UIP_ALLOCATED ->
   uip_tcpconnect cfg p (Some i) addr = Done (p, ERROR EISCONN)) /\
  (forall p', uip_tcpconnect cfg p (Some i) addr = Done (p', ERROR EISCONN) ->
   tcpstateflags (conn_at p i) <> UIP_ALLOCATED) /\
  (forall p', uip_tcpconnect cfg p (Some i) addr = Done (p', OK) ->
   tcpstateflags (conn_at p i) = UIP_ALLOCATED /\
   tcpstateflags (conn_at p' i) = UIP_SYN_SENT /\
   g_active_tcp_connections p' = g_active_tcp_connections p ++ [i] /\
   forall addr',
     uip_tcpconnect cfg p' (Some i) addr' = Done (p', ERROR EISCONN)).
Proof.
  intros Hlt. unfold uip_tcpconnect at 1 2 3.
  destruct (bool_decide (tcpstateflags (conn_at p i) <> UIP_ALLOCATED))
    eqn:Hs.
  - apply bool_decide_eq_true in Hs. repeat split; try done.
  - apply bool_decide_eq_false in Hs.
    assert (Hal : tcpstateflags (conn_at p i) = UIP_ALLOCATED)
      by (by destruct (decide (tcpstateflags (conn_at p i) = UIP_ALLOCATED))).
    split; [done|].
    destruct (uip_selectport cfg p (ntohs cfg (lport (conn_at p i))))
      as [[p1 [port|e]]| |] eqn:Hsel; simpl; try done.
    + apply uip_selectport_frame in Hsel.
      split; [done|]. intros p' [= <-].
      assert (Hst : tcpstateflags
                (conn_at (set_active
                   (dq_addlast i (g_active_tcp_connections p1))
                   (set_conn i (connected_conn cfg (conn_at p1 i) port addr)
                      p1)) i)
              = UIP_SYN_SENT).
      { unfold conn_at at 1; simpl.
        rewrite list_lookup_total_insert_eq; [done|].
        rewrite Hsel; simpl. done. }
      split; [done|]. split; [exact Hst|].
      split; [rewrite Hsel; done|].
      intros addr'. unfold uip_tcpconnect. rewrite Hst. done.
    + split; [|done]. intros p' [= <- He]. subst e.
      exfalso. unfold uip_selectport in Hsel.
      destruct (ntohs cfg (lport (conn_at p i)) =? 0).
      * by destruct (selectport_loop cfg p selectport_rounds
                       (g_last_tcp_port p)) as [[??]|].
      * by destruct (uip_tcplistener p (ntohs cfg (lport (conn_at p i)))).
Qed.

Lemma uip_tcpconnect_once_witness :
  let cfg := build_le 2 false in
  let p := {| g_tcp_connections :=
                [set_tcpstateflags UIP_ALLOCATED conn_zero; conn_zero];
              g_free_tcp_connections := [1%nat];
              g_active_tcp_connections := [];
              g_last_tcp_port := 1024; hooks := [] |} in
  let addr := {| sin_port := swap16 80; sin_addr := 167772161 |} in
  exists p', uip_tcpconnect cfg p (Some 0%nat) addr = Done (p', OK) /\
    tcpstateflags (conn_at p' 0) = UIP_SYN_SENT /\
    g_active_tcp_connections p' = [0%nat] /\
    uip_tcpconnect cfg p' (Some 0%nat) addr = Done (p', ERROR EISCONN).
Proof.
  intros cfg p addr. eexists. split; [vm_compute; reflexivity|].
  assert (Hlt : (0 < length (g_tcp_connections p))%nat) by (simpl; lia).
  destruct (uip_tcpconnect_once cfg p 0%nat addr Hlt) as (_ & _ & H).
  edestruct H as (_ & H1 & H2 & H3); [vm_compute; reflexivity|].
  split; [exact H1|]. split; [exact H2|]. apply H3.
Defined.

(** ** Allocation *)

Lemma set_free_same p : set_free (g_free_tcp_connections p) p = p.
Proof. by destruct p. Qed.

(** With a record on the free list, [uip_tcpalloc] hands out its head. *)
Lemma uip_tcpalloc_pop cfg p c rest :
  g_free_tcp_connections p = c :: rest ->
  uip_tcpalloc cfg p =
  Done (set_conn c (set_tcpstateflags UIP_ALLOCATED conn_zero)
          (set_free rest p), Some c).
Proof.
  intros Hf. unfold uip_tcpalloc. rewrite Hf. simpl.
  by destruct (CONFIG_NET_SOLINGER cfg).
Qed.

(** With linger semantics an empty free list ends the allocation. *)
Lemma uip_tcpalloc_empty_linger cfg p :
  CONFIG_NET_SOLINGER cfg = true ->
  g_free_tcp_connections p = [] ->
  uip_tcpalloc cfg p = Done (p, None).
Proof.
  intros Hl Hf. unfold uip_tcpalloc. rewrite Hf, Hl. simpl.
  by rewrite <- Hf, set_free_same.
Qed.

Lemma alloc_many_seq cfg n : forall p k,
  g_free_tcp_connections p = seq k n ->
  alloc_many cfg n p =
  Done ({| g_tcp_connections := allocated_all (seq k n) (g_tcp_connections p);
           g_free_tcp_connections := [];
           g_active_tcp_connections := g_active_tcp_connections p;
           g_last_tcp_port := g_last_tcp_port p;
           hooks := hooks p |}, map Some (seq k n)).
Proof.
  induction n as [|n IH]; intros p k Hf; simpl.
  - simpl in Hf. rewrite <- Hf. by destruct p.
  - simpl in Hf. rewrite (uip_tcpalloc_pop cfg p k (seq (S k) n) Hf). simpl.
    by rewrite (IH _ (S k)).
Qed.

(** C9: with linger semantics configured, the first [CONFIG_NET_TCP_CONNS]
    allocations after [uip_tcpinit] return the records 0, 1, ... of the
    array, all different; the next allocation returns no record and leaves
    the pool exactly as it was.  More generally an allocation that finds the
    free list empty returns no record and leaves the pool as it was, so no
    active record is reclaimed or torn down. *)
Theorem uip_tcpalloc_linger cfg :
  CONFIG_NET_SOLINGER cfg = true ->
  (exists p,
     alloc_many cfg (CONFIG_NET_TCP_CONNS cfg) (uip_tcpinit cfg) =
       Done (p, map Some (seq 0 (CONFIG_NET_TCP_CONNS cfg))) /\
     NoDup (map Some (seq 0 (CONFIG_NET_TCP_CONNS cfg))) /\
     uip_tcpalloc cfg p = Done (p, None)) /\
  (forall q, g_free_tcp_connections q = [] ->
     uip_tcpalloc cfg q = Done (q, None)).
Proof.
  intros Hl. split.
  - eexists. split; [by apply (alloc_many_seq cfg _ (uip_tcpinit cfg) 0%nat)|].
    split.
    + apply NoDup_fmap_2; [intros x y [= ->]; done | apply NoDup_seq].
    + by apply uip_tcpalloc_empty_linger.
  - intros q Hq. by apply uip_tcpalloc_empty_linger.
Qed.

Lemma uip_tcpalloc_linger_witness :
  let cfg := build_le 3 true in
  exists p,
    alloc_many cfg 3 (uip_tcpinit cfg) =
      Done (p, [Some 0%nat; Some 1%nat; Some 2%nat]) /\
    uip_tcpalloc cfg p = Done (p, None).
Proof.
  intros cfg.
  destruct (uip_tcpalloc_linger cfg) as [(p & H1 & _ & H2) _]; [reflexivity|].
  exists p. split; [exact H1 | exact H2].
Defined.

(** ** Reclamation *)

Section reclaim.

Variable p : pool.

Local Abbreviation state_of i := (tcpstateflags (conn_at p i)).
Local Abbreviation timer_of i := (timer (conn_at p i)).






End reclaim.



(** ** Bind *)

(** What [uip_tcpbind] does to the pool: nothing but [g_last_tcp_port] and
    the [lport] of the record change, and the [lport] stored on success is
    the port that was asked for. *)
Lemma uip_tcpbind_frame cfg p conn addr p' s :
  uip_tcpbind cfg p conn addr = Done (p', s) ->
  g_free_tcp_connections p' = g_free_tcp_connections p /\
  g_active_tcp_connections p' = g_active_tcp_connections p /\
  length (g_tcp_connections p') = length (g_tcp_connections p) /\
  (forall j, tcpstateflags (conn_at p' j) = tcpstateflags (conn_at p j)) /\
  (s = OK -> (conn < length (g_tcp_connections p))%nat ->
   lport (conn_at p' conn) = sin_port addr).
Proof.
  unfold uip_tcpbind.
  destruct (uip_selectport cfg p (ntohs cfg (sin_port addr)))
    as [[p1 [port|e]]| |] eqn:Hsel; simpl; try done.
  - apply uip_selectport_frame in Hsel. intros [= <- <-].
    rewrite Hsel. simpl. repeat split; try done.
    + by rewrite length_insert.
    + intros j. unfold conn_at; simpl.
      destruct (decide (conn = j)) as [->|Hne].
      * destruct (decide (j < length (g_tcp_connections p))%nat).
        -- by rewrite list_lookup_total_insert_eq.
        -- by rewrite list_insert_ge by lia.
      * by rewrite list_lookup_total_insert_ne.
    + intros _ Hlt. unfold conn_at; simpl.
      by rewrite list_lookup_total_insert_eq.
  - apply uip_selectport_frame in Hsel. intros [= <- <-].
    rewrite Hsel. by repeat split.
Qed.

(** C4: two records are allocated from a fresh pool of two and each is
    bound with port 0.  Both calls return [OK]; the selector resolves 1025
    and then 1026, as [g_last_tcp_port] shows; yet the [lport] stored in
    either record is the requested 0, so the two records hold the same
    port.  States and active list are as before the calls. *)
Theorem uip_tcpbind_port0_stores_zero :
  let cfg := build_le 2 false in
  let any := {| sin_port := 0; sin_addr := 0 |} in
  exists p2 p3 p4,
    alloc_many cfg 2 (uip_tcpinit cfg) = Done (p2, [Some 0%nat; Some 1%nat]) /\
    uip_tcpbind cfg p2 0 any = Done (p3, OK) /\
    uip_tcpbind cfg p3 1 any = Done (p4, OK) /\
    g_last_tcp_port p3 = 1025 /\ g_last_tcp_port p4 = 1026 /\
    lport (conn_at p4 0) = 0 /\ lport (conn_at p4 1) = 0 /\
    tcpstateflags (conn_at p4 0) = UIP_ALLOCATED /\
    tcpstateflags (conn_at p4 1) = UIP_ALLOCATED /\
    g_active_tcp_connections p4 = [].
Proof.
  intros cfg any. do 3 eexists.
  split; [vm_compute; reflexivity|].
  split; [vm_compute; reflexivity|].
  split; [vm_compute; reflexivity|].
  vm_compute. by repeat split.
Qed.

(** ** List membership follows the state *)

Lemma records_in_place_active p i :
  records_in_place p ->
  (i < length (g_tcp_connections p))%nat ->
  i ∈ g_active_tcp_connections p ->
  tcpstateflags (conn_at p i) <> UIP_CLOSED /\
  tcpstateflags (conn_at p i) <> UIP_ALLOCATED.
Proof.
  intros H Hlt Hact.
  destruct (H i (conn_at p i) (lookup_conn_at p i Hlt)) as (H1 & H2 & _ & H4).
  split.
  - intros Hs. apply H4. split; [by apply H1 | done].
  - intros Hs. by destruct (H2 Hs).
Qed.

(** The invariant only looks at the queues and at the states. *)
Lemma pool_inv_same_states p p' :
  g_free_tcp_connections p' = g_free_tcp_connections p ->
  g_active_tcp_connections p' = g_active_tcp_connections p ->
  length (g_tcp_connections p') = length (g_tcp_connections p) ->
  (forall j, tcpstateflags (conn_at p' j) = tcpstateflags (conn_at p j)) ->
  pool_inv p -> pool_inv p'.
Proof.
  intros Hf Ha Hlen Hst [I1 I2 I3 I4 I5].
  split; rewrite ?Hf, ?Ha, ?Hlen; try done.
  intros i c Hi. rewrite Hf, Ha.
  assert (Hlt : (i < length (g_tcp_connections p))%nat)
    by (rewrite <- Hlen; by eapply lookup_lt_Some).
  rewrite <- (conn_at_lookup p' i c Hi), Hst.
  apply I5. by apply lookup_conn_at.
Qed.

Lemma pool_inv_init cfg : pool_inv (uip_tcpinit cfg).
Proof.
  split; simpl.
  - apply NoDup_seq.
  - constructor.
  - intros i Hi. apply elem_of_seq in Hi. rewrite length_replicate. lia.
  - intros i Hi. by apply elem_of_nil in Hi.
  - intros i c Hi. simpl in *.
    apply lookup_replicate in Hi as [-> Hi]. simpl.
    unfold dq_init. repeat split; try done.
    + intros _. apply elem_of_seq. lia.
    + intros [_ H]. by apply elem_of_nil in H.
Qed.

(** Taking the head of the free list and marking it allocated. *)
Lemma pool_inv_pop p c rest :
  g_free_tcp_connections p = c :: rest ->
  pool_inv p ->
  pool_inv (set_conn c (set_tcpstateflags UIP_ALLOCATED conn_zero)
              (set_free rest p)).
Proof.
  intros Hf [I1 I2 I3 I4 I5]. rewrite Hf in I1, I3.
  apply NoDup_cons in I1 as [Hc Hrest].
  assert (Hcact : c ∉ g_active_tcp_connections p).
  { intros Hact.
    assert (Hlt : (c < length (g_tcp_connections p))%nat)
      by (apply I3, elem_of_cons; auto).
    destruct (I5 c _ (lookup_conn_at p c Hlt)) as (_ & _ & _ & H4).
    apply H4. split; [rewrite Hf; apply elem_of_cons; auto | done]. }
  split; simpl; try done.
  - intros i Hi. rewrite length_insert. apply I3, elem_of_cons; auto.
  - intros i Hi. rewrite length_insert. by apply I4.
  - intros i c' Hi. simpl in *.
    destruct (decide (c = i)) as [->|Hne].
    + apply list_lookup_insert_Some in Hi as [(_ & <- & _)|[? _]]; [|done].
      simpl. repeat split; try done. by intros [].
    + rewrite list_lookup_insert_ne in Hi by done.
      destruct (I5 i c' Hi) as (H1 & H2 & H3 & H4). rewrite Hf in H1, H2, H4.
      rewrite elem_of_cons in H1. rewrite not_elem_of_cons in H2.
      repeat split.
      * intros Hin. apply H1. auto.
      * intros Hs. apply H1 in Hs as [->|Hs]; done.
      * apply H2. done.
      * apply H2. done.
      * done.
      * intros [Hin Hact]. apply H4. split; [apply elem_of_cons; auto | done].
Qed.

(** Releasing a record that is in use. *)
Lemma pool_inv_free cfg p conn p' :
  uip_tcpfree cfg p conn = Done p' ->
  (conn < length (g_tcp_connections p))%nat ->
  tcpstateflags (conn_at p conn) <> UIP_CLOSED ->
  pool_inv p -> pool_inv p'.
Proof.
  intros Hfree Hlt Hst [I1 I2 I3 I4 I5].
  destruct (decide (crefs (conn_at p conn) = 0)) as [Hc|Hc];
    [|by rewrite uip_tcpfree_assert_fails in Hfree].
  rewrite (uip_tcpfree_Done cfg p conn Hc) in Hfree.
  injection Hfree as <-.
  destruct (I5 conn _ (lookup_conn_at p conn Hlt)) as (H1 & H2 & H3 & H4).
  assert (Hnf : conn ∉ g_free_tcp_connections p) by (intros H; by apply Hst, H1).
  set (act' := if bool_decide (tcpstateflags (conn_at p conn) <> UIP_ALLOCATED)
               then dq_rem conn (g_active_tcp_connections p)
               else g_active_tcp_connections p).
  assert (Hact' : NoDup act' /\ (conn ∉ act') /\
            (forall j, j <> conn ->
               j ∈ act' <-> j ∈ g_active_tcp_connections p) /\
            (forall j, j ∈ act' -> j ∈ g_active_tcp_connections p)).
  { unfold act'. case_bool_decide as Hal.
    - destruct (dq_rem_NoDup conn _ I2) as [? ?].
      repeat split; try done.
      + apply dq_rem_elem_of.
      + by apply dq_rem_other.
      + apply dq_rem_elem_of.
    - assert (Hal' : tcpstateflags (conn_at p conn) = UIP_ALLOCATED)
        by (by destruct (decide
               (tcpstateflags (conn_at p conn) = UIP_ALLOCATED))).
      destruct (H2 Hal'). repeat split; done. }
  destruct Hact' as (A1 & A2 & A3 & A4).
  split; simpl; fold act'.
  - apply NoDup_app. repeat split; [done| |apply NoDup_singleton].
    intros x Hx Hx'. apply list_elem_of_singleton in Hx'. by subst.
  - done.
  - intros i Hi. rewrite length_insert.
    apply elem_of_app in Hi as [Hi|Hi]; [by apply I3|].
    apply list_elem_of_singleton in Hi. by subst.
  - intros i Hi. rewrite length_insert. by apply I4, A4.
  - intros i c Hi. simpl in *. fold act'.
    destruct (decide (conn = i)) as [->|Hne].
    + apply list_lookup_insert_Some in Hi as [(_ & <- & _)|[? _]]; [|done].
      simpl. repeat split; try done.
      * intros _. apply elem_of_app. right. apply list_elem_of_singleton. done.
      * by intros [_ ?].
    + rewrite list_lookup_insert_ne in Hi by done.
      destruct (I5 i c Hi) as (J1 & J2 & J3 & J4).
      assert (Hfi : i ∈ g_free_tcp_connections p ++ [conn] <->
                    i ∈ g_free_tcp_connections p).
      { rewrite elem_of_app, list_elem_of_singleton.
        split; [intros [?|?]; [done | congruence] | auto]. }
      rewrite Hfi, (A3 i) by done. done.
Qed.

(** Giving an allocated record an active state and queueing it. *)
Lemma pool_inv_activate p i c :
  (i < length (g_tcp_connections p))%nat ->
  tcpstateflags (conn_at p i) = UIP_ALLOCATED ->
  tcpstateflags c <> UIP_CLOSED -> tcpstateflags c <> UIP_ALLOCATED ->
  pool_inv p ->
  pool_inv (set_active (dq_addlast i (g_active_tcp_connections (set_conn i c p)))
              (set_conn i c p)).
Proof.
  intros Hlt Hal Hc1 Hc2 [I1 I2 I3 I4 I5].
  destruct (I5 i _ (lookup_conn_at p i Hlt)) as (H1 & H2 & H3 & H4).
  destruct (H2 Hal) as [Hnf Hna].
  split; simpl; unfold dq_addlast.
  - done.
  - apply NoDup_app. repeat split; [done| |apply NoDup_singleton].
    intros x Hx Hx'. apply list_elem_of_singleton in Hx'. by subst.
  - intros j Hj. rewrite length_insert. by apply I3.
  - intros j Hj. rewrite length_insert.
    apply elem_of_app in Hj as [Hj|Hj]; [by apply I4|].
    apply list_elem_of_singleton in Hj. by subst.
  - intros j c' Hj. simpl in *.
    destruct (decide (i = j)) as [->|Hne].
    + apply list_lookup_insert_Some in Hj as [(_ & <- & _)|[? _]]; [|done].
      repeat split; try done.
      * intros _ _. apply elem_of_app. right. by apply list_elem_of_singleton.
      * by intros [? _].
    + rewrite list_lookup_insert_ne in Hj by done.
      destruct (I5 j c' Hj) as (J1 & J2 & J3 & J4).
      assert (Haj : j ∈ g_active_tcp_connections p ++ [i] <->
                    j ∈ g_active_tcp_connections p).
      { rewrite elem_of_app, list_elem_of_singleton.
        split; [intros [?|?]; [done | congruence] | auto]. }
      rewrite Haj. done.
Qed.

Lemma reclaim_scan_found p tmp conn v :
  reclaim_scan p tmp conn = Some v ->
  conn = Some v \/
  (v ∈ tmp /\ sacrificial (tcpstateflags (conn_at p v)) = true).
Proof.
  revert conn. induction tmp as [|t rest IH]; intros conn; simpl; [auto|].
  intros H. apply IH in H as [H|[H1 H2]].
  - destruct (sacrificial (tcpstateflags (conn_at p t))) eqn:Hs; [|auto].
    destruct conn as [c|].
    + destruct (timer (conn_at p t) >? timer (conn_at p c)); [|auto].
      injection H as <-. right. split; [apply elem_of_cons; auto | done].
    + injection H as <-. right. split; [apply elem_of_cons; auto | done].
  - right. split; [apply elem_of_cons; auto | done].
Qed.

(** With the free list empty and no linger semantics, allocation is the
    scan, the release of the record found and an allocation from the free
    list again. *)
Lemma uip_tcpalloc_empty cfg p :
  CONFIG_NET_SOLINGER cfg = false ->
  g_free_tcp_connections p = [] ->
  uip_tcpalloc cfg p =
  match reclaim_scan p (g_active_tcp_connections p) None with
  | Some victim => p1 ← uip_tcpfree cfg p victim; uip_tcpalloc cfg p1
  | None => Done (p, None)
  end.
Proof.
  intros Hl Hf. unfold uip_tcpalloc at 1. rewrite Hf, Hl. simpl.
  rewrite <- Hf, set_free_same.
  destruct (reclaim_scan p (g_active_tcp_connections p) None) as [v|];
    [|done].
  destruct (decide (crefs (conn_at p v) = 0)) as [Hc|Hc].
  - rewrite (uip_tcpfree_Done cfg p v Hc). simpl. rewrite Hf. simpl.
    erewrite uip_tcpalloc_pop by (simpl; reflexivity). done.
  - by rewrite (uip_tcpfree_assert_fails cfg p v Hc).
Qed.

Lemma uip_tcpfree_free_list cfg p conn p' :
  uip_tcpfree cfg p conn = Done p' ->
  g_free_tcp_connections p' = g_free_tcp_connections p ++ [conn] /\
  length (g_tcp_connections p') = length (g_tcp_connections p).
Proof.
  intros Hfree.
  destruct (decide (crefs (conn_at p conn) = 0)) as [Hc|Hc];
    [|by rewrite uip_tcpfree_assert_fails in Hfree].
  rewrite (uip_tcpfree_Done cfg p conn Hc) in Hfree.
  injection Hfree as <-. simpl. by rewrite length_insert.
Qed.

(** Allocation keeps the invariant, and the record it returns is an
    allocated record of the array. *)
Lemma pool_inv_alloc cfg p p' r :
  uip_tcpalloc cfg p = Done (p', r) ->
  pool_inv p ->
  pool_inv p' /\
  forall i, r = Some i ->
    (i < length (g_tcp_connections p'))%nat /\
    tcpstateflags (conn_at p' i) = UIP_ALLOCATED.
Proof.
  assert (Hpop : forall q c rest q' r',
            g_free_tcp_connections q = c :: rest ->
            uip_tcpalloc cfg q = Done (q', r') -> pool_inv q ->
            pool_inv q' /\
            forall i, r' = Some i ->
              (i < length (g_tcp_connections q'))%nat /\
              tcpstateflags (conn_at q' i) = UIP_ALLOCATED).
  { intros q c rest q' r' Hf Hal Hinv.
    rewrite (uip_tcpalloc_pop cfg q c rest Hf) in Hal.
    injection Hal as <- <-.
    assert (Hlt : (c < length (g_tcp_connections q))%nat)
      by (apply (inv_free_valid q Hinv); rewrite Hf; apply elem_of_cons; auto).
    split; [by apply pool_inv_pop|].
    intros i [= <-]. split; [simpl; by rewrite length_insert|].
    by rewrite conn_at_set_conn_eq. }
  intros Hal Hinv.
  destruct (g_free_tcp_connections p) as [|c rest] eqn:Hf;
    [|by eapply Hpop].
  destruct (CONFIG_NET_SOLINGER cfg) eqn:Hl.
  - rewrite (uip_tcpalloc_empty_linger cfg p Hl Hf) in Hal.
    injection Hal as <- <-. by split.
  - rewrite (uip_tcpalloc_empty cfg p Hl Hf) in Hal.
    destruct (reclaim_scan p (g_active_tcp_connections p) None) as [v|]
      eqn:Hscan; [|injection Hal as <- <-; by split].
    apply reclaim_scan_found in Hscan as [Hscan|[Hv Hs]]; [done|].
    destruct (uip_tcpfree cfg p v) as [p1| |] eqn:Hfree; simpl in Hal;
      try done.
    assert (Hlt : (v < length (g_tcp_connections p))%nat)
      by (by apply (inv_active_valid p Hinv)).
    assert (Hinv1 : pool_inv p1).
    { eapply pool_inv_free; [exact Hfree | done | | done].
      intros E. rewrite E in Hs. discriminate. }
    destruct (uip_tcpfree_free_list cfg p v p1 Hfree) as [Hf1 _].
    rewrite Hf in Hf1. simpl in Hf1. by eapply Hpop.
Qed.

Lemma pool_inv_accept cfg p buf p' r :
  uip_tcpaccept cfg p buf = Done (p', r) ->
  pool_inv p -> pool_inv p'.
Proof.
  unfold uip_tcpaccept. intros Hacc Hinv.
  destruct (uip_tcpalloc cfg p) as [[p1 [i|]]| |] eqn:Hal; simpl in Hacc;
    try done.
  - destruct (pool_inv_alloc cfg p p1 (Some i) Hal Hinv) as [Hinv1 Hi].
    destruct (Hi i eq_refl) as [Hlt Hst].
    injection Hacc as <- <-. by apply pool_inv_activate.
  - injection Hacc as <- <-.
    by destruct (pool_inv_alloc cfg p p1 None Hal Hinv).
Qed.

Lemma pool_inv_connect cfg p conn addr p' s :
  uip_tcpconnect cfg p conn addr = Done (p', s) ->
  pointers_valid p (op_connect conn addr) ->
  pool_inv p -> pool_inv p'.
Proof.
  unfold uip_tcpconnect. intros Hcon Hvalid Hinv.
  destruct conn as [i|]; [|by injection Hcon as <- <-].
  simpl in Hvalid. case_bool_decide as Hst; [by injection Hcon as <- <-|].
  assert (Hal : tcpstateflags (conn_at p i) = UIP_ALLOCATED)
    by (by destruct (decide (tcpstateflags (conn_at p i) = UIP_ALLOCATED))).
  destruct (uip_selectport cfg p (ntohs cfg (lport (conn_at p i))))
    as [[p1 [port|e]]| |] eqn:Hsel; simpl in Hcon; try done.
  - apply uip_selectport_frame in Hsel.
    assert (Hinv1 : pool_inv p1)
      by (rewrite Hsel; by apply (pool_inv_same_states p)).
    injection Hcon as <- <-. apply pool_inv_activate; try done.
    + by rewrite Hsel.
    + by rewrite Hsel.
  - apply uip_selectport_frame in Hsel. injection Hcon as <- <-.
    rewrite Hsel. by apply (pool_inv_same_states p).
Qed.

Lemma pool_inv_bind cfg p conn addr p' s :
  uip_tcpbind cfg p conn addr = Done (p', s) ->
  pool_inv p -> pool_inv p'.
Proof.
  intros Hbind Hinv.
  destruct (uip_tcpbind_frame cfg p conn addr p' s Hbind)
    as (Hf & Ha & Hlen & Hst & _).
  by apply (pool_inv_same_states p).
Qed.

Lemma reachable_pool_inv cfg p :
  reachable cfg free_in_use p -> pool_inv p.
Proof.
  induction 1 as [|p o p' Hreach IH Hvalid Hfree Hrun];
    [apply pool_inv_init|].
  destruct o as [|conn|buf|conn addr|conn addr]; simpl in Hrun.
  - destruct (uip_tcpalloc cfg p) as [[p1 r]| |] eqn:Hal; simpl in Hrun;
      try done.
    injection Hrun as <-. by destruct (pool_inv_alloc cfg p p1 r Hal IH).
  - eapply pool_inv_free; [exact Hrun | exact Hvalid | | exact IH].
    by apply (Hfree conn).
  - destruct (uip_tcpaccept cfg p buf) as [[p1 r]| |] eqn:Hacc;
      simpl in Hrun; try done.
    injection Hrun as <-. by eapply pool_inv_accept.
  - destruct (uip_tcpconnect cfg p conn addr) as [[p1 s]| |] eqn:Hcon;
      simpl in Hrun; try done.
    injection Hrun as <-. by eapply pool_inv_connect.
  - destruct (uip_tcpbind cfg p conn addr) as [[p1 s]| |] eqn:Hbind;
      simpl in Hrun; try done.
    injection Hrun as <-. by eapply pool_inv_bind.
Qed.

(** C2, as amended: in every pool reached from [uip_tcpinit] by calls of
    allocate, release, accept, connect and bind that return, release being
    called only on records that are not [UIP_CLOSED], every record is on the
    free list exactly when it is [UIP_CLOSED], on neither list when it is
    [UIP_ALLOCATED], on the active list otherwise, and never on both. *)
Theorem reachable_records_in_place cfg p :
  reachable cfg free_in_use p -> records_in_place p.
Proof. intros H. by apply inv_in_place, (reachable_pool_inv cfg). Qed.

(** C2, as stated, fails when a record is released twice: allocate,
    release, release again, allocate.  The second release queues the closed
    record on the free list a second time, and the allocation that follows
    hands it out while it still is on the free list. *)
Lemma reachable_free_any_not_in_place :
  let cfg := build_le 1 false in
  let p := {| g_tcp_connections := [set_tcpstateflags UIP_ALLOCATED conn_zero];
              g_free_tcp_connections := [0%nat];
              g_active_tcp_connections := [];
              g_last_tcp_port := 1024; hooks := [] |} in
  reachable cfg free_any p /\ ~ records_in_place p.
Proof.
  intros cfg p. split.
  - pose (q s f := {| g_tcp_connections := [set_tcpstateflags s conn_zero];
                      g_free_tcp_connections := f;
                      g_active_tcp_connections := [];
                      g_last_tcp_port := 1024; hooks := [] |}).
    assert (R0 : reachable cfg free_any (q UIP_CLOSED [0%nat]))
      by apply reachable_init.
    assert (R1 : reachable cfg free_any (q UIP_ALLOCATED [])).
    { by apply (reachable_run cfg free_any _ op_alloc _ R0). }
    assert (R2 : reachable cfg free_any (q UIP_CLOSED [0%nat])).
    { apply (reachable_run cfg free_any _ (op_free 0) _ R1); try done.
      simpl; lia. }
    assert (R3 : reachable cfg free_any (q UIP_CLOSED [0%nat; 0%nat])).
    { apply (reachable_run cfg free_any _ (op_free 0) _ R2); try done.
      simpl; lia. }
    by apply (reachable_run cfg free_any _ op_alloc _ R3).
  - intros H. destruct (H 0%nat _ eq_refl) as (_ & H2 & _).
    destruct (H2 eq_refl) as [Hnf _]. apply Hnf. simpl.
    apply elem_of_cons; auto.
Qed.

Lemma reachable_records_in_place_witness :
  let cfg := build_le 2 false in
  let addr := {| sin_port := swap16 80; sin_addr := 167772161 |} in
  exists p, reachable cfg free_in_use p /\
    g_active_tcp_connections p = [0%nat] /\
    g_free_tcp_connections p = [1%nat] /\
    records_in_place p.
Proof.
  intros cfg addr.
  pose proof (reachable_init cfg free_in_use) as R0.
  eassert (R1 : reachable cfg free_in_use _).
  { eapply (reachable_run cfg free_in_use _ op_alloc _ R0);
      [exact I | intros conn H; discriminate | vm_compute; reflexivity]. }
  eassert (R2 : reachable cfg free_in_use _).
  { eapply (reachable_run cfg free_in_use _ (op_connect (Some 0%nat) addr) _ R1);
      [simpl; lia | intros conn H; discriminate | vm_compute; reflexivity]. }
  eassert (R3 : reachable cfg free_in_use _).
  { eapply (reachable_run cfg free_in_use _ op_alloc _ R2);
      [exact I | intros conn H; discriminate | vm_compute; reflexivity]. }
  eassert (R4 : reachable cfg free_in_use _).
  { eapply (reachable_run cfg free_in_use _ (op_free 1) _ R3);
      [simpl; lia
      | intros conn [= <-]; vm_compute; discriminate
      | vm_compute; reflexivity]. }
  eexists. split; [exact R4|].
  split; [reflexivity|]. split; [reflexivity|].
  exact (reachable_records_in_place cfg _ R4).
Defined.

(** ** The linked queues and the sequences *)

Lemma first_or_app l1 l2 next :
  first_or (l1 ++ l2) next = first_or l1 (first_or l2 next).
Proof. by destruct l1. Qed.

Lemma last_or_app l1 l2 prev :
  last_or (l1 ++ l2) prev = last_or l2 (last_or l1 prev).
Proof. revert prev. induction l1 as [|a r IH]; intros prev; simpl; [done|apply IH]. Qed.

Lemma last_or_elem_of l prev m :
  last_or l prev = Some m -> m ∈ l \/ prev = Some m.
Proof.
  revert prev. induction l as [|a r IH]; intros prev; simpl; [by right|].
  intros H. apply IH in H as [H|[= ->]]; left.
  - by apply elem_of_cons; right.
  - by apply elem_of_cons; left.
Qed.

Lemma dq_segment_app ns prev l1 l2 next :
  dq_segment ns prev (l1 ++ l2) next <->
  dq_segment ns prev l1 (first_or l2 next) /\
  dq_segment ns (last_or l1 prev) l2 next.
Proof.
  revert prev. induction l1 as [|a r IH]; intros prev; simpl.
  - tauto.
  - rewrite IH, first_or_app. tauto.
Qed.

Lemma dq_segment_fields ns ns' prev l next :
  (forall m, m ∈ l ->
     Linked.flink (ns' !!! m) = Linked.flink (ns !!! m) /\
     Linked.blink (ns' !!! m) = Linked.blink (ns !!! m)) ->
  dq_segment ns prev l next -> dq_segment ns' prev l next.
Proof.
  revert prev. induction l as [|a r IH]; intros prev Hsame; simpl; [done|].
  intros (H1 & H2 & H3).
  destruct (Hsame a) as [-> ->]; [apply elem_of_cons; by left|].
  split; [done|]. split; [done|]. apply IH; [|done].
  intros m Hm. apply Hsame, elem_of_cons. by right.
Qed.

Lemma dq_segment_frame ns ns' prev l next :
  (forall m, m ∈ l -> ns' !!! m = ns !!! m) ->
  dq_segment ns prev l next -> dq_segment ns' prev l next.
Proof.
  intros Hsame. apply dq_segment_fields.
  intros m Hm. by rewrite Hsame.
Qed.

(** What a walk reads. *)
Lemma dq_walk_segment ns prev l fuel :
  dq_segment ns prev l None ->
  (length l <= fuel)%nat ->
  Linked.dq_walk fuel ns (first_or l None) = l.
Proof.
  revert prev fuel. induction l as [|a r IH]; intros prev fuel Hseg Hlen; simpl.
  - by destruct fuel.
  - destruct fuel as [|fuel]; [simpl in Hlen; lia|]. simpl.
    destruct Hseg as (_ & Hf & Hseg). rewrite Hf. f_equal.
    apply (IH (Some a)); [done | simpl in Hlen; lia].
Qed.

Lemma set_flink_length v i ns : length (Linked.set_flink v i ns) = length ns.
Proof. unfold Linked.set_flink. by rewrite length_insert. Qed.

Lemma set_blink_length v i ns : length (Linked.set_blink v i ns) = length ns.
Proof. unfold Linked.set_blink. by rewrite length_insert. Qed.

Lemma set_flink_eq v i ns :
  (i < length ns)%nat ->
  Linked.set_flink v i ns !!! i =
  {| Linked.flink := v; Linked.blink := Linked.blink (ns !!! i) |}.
Proof. intros H. unfold Linked.set_flink. by rewrite list_lookup_total_insert_eq. Qed.

Lemma set_flink_ne v i ns m :
  m <> i -> Linked.set_flink v i ns !!! m = ns !!! m.
Proof. intros H. unfold Linked.set_flink. by rewrite list_lookup_total_insert_ne. Qed.

Lemma set_blink_eq v i ns :
  (i < length ns)%nat ->
  Linked.set_blink v i ns !!! i =
  {| Linked.flink := Linked.flink (ns !!! i); Linked.blink := v |}.
Proof. intros H. unfold Linked.set_blink. by rewrite list_lookup_total_insert_eq. Qed.

Lemma set_blink_ne v i ns m :
  m <> i -> Linked.set_blink v i ns !!! m = ns !!! m.
Proof. intros H. unfold Linked.set_blink. by rewrite list_lookup_total_insert_ne. Qed.

(** [dq_addlast] of a node that is not on the queue appends it to what a
    walk reads, and touches no node but that one and the old tail. *)
Lemma dq_addlast_links ns q l n :
  links_queue ns q l ->
  NoDup l -> n ∉ l ->
  (n < length ns)%nat ->
  (forall m, m ∈ l -> (m < length ns)%nat) ->
  exists ns' q',
    Linked.dq_addlast n ns q = Some (ns', q') /\
    links_queue ns' q' (dq_addlast n l) /\
    length ns' = length ns /\
    (forall m, m <> n -> last_or l None <> Some m -> ns' !!! m = ns !!! m).
Proof.
  intros (Hh & Ht & Hseg) Hnd Hn Hlt Hval. unfold Linked.dq_addlast, dq_addlast.
  destruct l as [|a r _] using rev_ind.
  - simpl in *. rewrite Hh, Ht. do 2 eexists. split; [reflexivity|].
    split; [|split; [by rewrite length_insert|]].
    + split; [done|]. split; [done|]. simpl.
      by rewrite list_lookup_total_insert_eq.
    + intros m Hm _. by rewrite list_lookup_total_insert_ne.
  - rewrite first_or_app in Hh. rewrite last_or_app in Ht. simpl in Ht.
    assert (Han : a <> n).
    { intros ->. apply Hn, elem_of_app. right. by apply list_elem_of_singleton. }
    assert (Ha : (a < length ns)%nat).
    { apply Hval, elem_of_app. right. by apply list_elem_of_singleton. }
    apply NoDup_app in Hnd as (Hndr & Hdis & _).
    apply dq_segment_app in Hseg as (Hseg1 & Hb & Hf & _). simpl in Hseg1.
    assert (Hhd : exists h, Linked.head q = Some h).
    { rewrite Hh. destruct r; simpl; by eexists. }
    destruct Hhd as (h & Hhd). rewrite Hhd, Ht.
    do 2 eexists. split; [reflexivity|].
    split; [|split; [by rewrite set_flink_length, length_insert|]].
    + split; [|split].
      * simpl. rewrite Hhd in Hh. by rewrite !first_or_app.
      * simpl. by rewrite !last_or_app.
      * rewrite <- app_assoc. apply dq_segment_app. split.
        -- simpl. apply (dq_segment_frame ns); [|done].
           intros m Hm. rewrite set_flink_ne, list_lookup_total_insert_ne; try done.
           ++ intros ->. apply Hn, elem_of_app. by left.
           ++ intros ->. apply (Hdis a Hm). by apply list_elem_of_singleton.
        -- simpl. rewrite set_flink_eq by (by rewrite length_insert).
           rewrite list_lookup_total_insert_ne by done. simpl.
           split; [done|]. split; [done|].
           rewrite set_flink_ne by done.
           rewrite list_lookup_total_insert_eq by done. simpl. done.
    + intros m Hm Hl. rewrite last_or_app in Hl. simpl in Hl.
      rewrite set_flink_ne by (intros ->; by apply Hl).
      by rewrite list_lookup_total_insert_ne.
Qed.

(** The nodes and the queue that [dq_rem] leaves, node by node. *)
Lemma dq_rem_nodes n ns q :
  (forall m, Linked.blink (ns !!! n) = Some m -> (m < length ns)%nat) ->
  (forall m, Linked.flink (ns !!! n) = Some m -> (m < length ns)%nat) ->
  exists ns',
    Linked.dq_rem n ns q =
      (ns',
       {| Linked.head := match Linked.blink (ns !!! n) with
                         | None => Linked.flink (ns !!! n)
                         | Some _ => Linked.head q
                         end;
          Linked.tail := match Linked.flink (ns !!! n) with
                         | None => Linked.blink (ns !!! n)
                         | Some _ => Linked.tail q
                         end |}) /\
    length ns' = length ns /\
    forall m, m <> n ->
      Linked.flink (ns' !!! m) =
        (if decide (Linked.blink (ns !!! n) = Some m)
         then Linked.flink (ns !!! n) else Linked.flink (ns !!! m)) /\
      Linked.blink (ns' !!! m) =
        (if decide (Linked.flink (ns !!! n) = Some m)
         then Linked.blink (ns !!! n) else Linked.blink (ns !!! m)).
Proof.
  intros Hp Hn. unfold Linked.dq_rem.
  destruct (Linked.blink (ns !!! n)) as [pv|] eqn:Ep;
    destruct (Linked.flink (ns !!! n)) as [nx|] eqn:En;
    eexists; (split; [reflexivity|]);
    (split; [by rewrite length_insert, ?set_blink_length, ?set_flink_length|]);
    intros m Hm; rewrite list_lookup_total_insert_ne by done.
  - specialize (Hp pv eq_refl). specialize (Hn nx eq_refl).
    destruct (decide (m = nx)) as [->|Hnx].
    + rewrite set_blink_eq by (by rewrite set_flink_length). simpl.
      rewrite (decide_True (P := Some nx = Some nx)) by done.
      split; [|done]. destruct (decide (nx = pv)) as [->|Hpv].
      * rewrite set_flink_eq by done. simpl. by rewrite decide_True.
      * rewrite set_flink_ne by done.
        by rewrite decide_False by (intros [= ->]; done).
    + rewrite set_blink_ne by done.
      rewrite (decide_False (P := Some nx = Some m)) by (intros [= ->]; done).
      destruct (decide (m = pv)) as [->|Hpv].
      * rewrite set_flink_eq by done. simpl. by rewrite decide_True.
      * rewrite set_flink_ne by done.
        by rewrite decide_False by (intros [= ->]; done).
  - specialize (Hp pv eq_refl).
    rewrite (decide_False (P := None = Some m)) by done.
    destruct (decide (m = pv)) as [->|Hpv].
    + rewrite set_flink_eq by done. simpl. by rewrite decide_True.
    + rewrite set_flink_ne by done.
      by rewrite decide_False by (intros [= ->]; done).
  - specialize (Hn nx eq_refl).
    rewrite (decide_False (P := None = Some m)) by done.
    destruct (decide (m = nx)) as [->|Hnx].
    + rewrite set_blink_eq by done. simpl. by rewrite decide_True.
    + rewrite set_blink_ne by done.
      by rewrite decide_False by (intros [= ->]; done).
  - by rewrite !(decide_False (P := None = Some m)) by done.
Qed.

Lemma first_or_elem_of l m : first_or l None = Some m -> m ∈ l.
Proof. destruct l; [done|]. intros [= ->]. apply elem_of_cons. by left. Qed.

Lemma last_or_is_Some l a : exists m, last_or l (Some a) = Some m.
Proof. revert a. induction l as [|b r IH]; intros a; simpl; [by eexists|apply IH]. Qed.

(** A segment is kept when the forward link of its last node is redirected
    and no other link of its nodes changes. *)
Lemma dq_segment_redirect ns ns' prev l next next' :
  NoDup l ->
  dq_segment ns prev l next ->
  (forall m, m ∈ l -> Linked.blink (ns' !!! m) = Linked.blink (ns !!! m)) ->
  (forall m, m ∈ l -> last_or l prev <> Some m ->
     Linked.flink (ns' !!! m) = Linked.flink (ns !!! m)) ->
  (forall m, m ∈ l -> last_or l prev = Some m ->
     Linked.flink (ns' !!! m) = next') ->
  dq_segment ns' prev l next'.
Proof.
  revert prev. induction l as [|a r IH]; intros prev Hnd Hseg Hb Hf Hl; [done|].
  apply NoDup_cons in Hnd as [Ha Hnd]. destruct Hseg as (H1 & H2 & H3).
  assert (Hin : a ∈ a :: r) by (apply elem_of_cons; by left).
  simpl. split; [by rewrite Hb|]. split.
  - destruct r as [|b r']; simpl in *.
    + by apply Hl.
    + rewrite Hf; [done|done|]. intros Heq.
      apply last_or_elem_of in Heq as [Heq|[= ->]].
      * apply Ha. apply elem_of_cons. by right.
      * apply Ha. apply elem_of_cons. by left.
  - apply IH; [done|done|..].
    + intros m Hm. apply Hb, elem_of_cons. by right.
    + intros m Hm. apply Hf, elem_of_cons. by right.
    + intros m Hm. apply Hl, elem_of_cons. by right.
Qed.

(** [dq_rem] of a node that is on the queue takes it out of what a walk
    reads, and touches no node that is not on the queue. *)
Lemma dq_rem_links ns q l n :
  links_queue ns q l ->
  NoDup l -> n ∈ l ->
  (forall m, m ∈ l -> (m < length ns)%nat) ->
  exists ns' q',
    Linked.dq_rem n ns q = (ns', q') /\
    links_queue ns' q' (dq_rem n l) /\
    length ns' = length ns /\
    (forall m, m ∉ l ->
       Linked.flink (ns' !!! m) = Linked.flink (ns !!! m) /\
       Linked.blink (ns' !!! m) = Linked.blink (ns !!! m)).
Proof.
  intros (Hh & Ht & Hseg) Hnd Hin Hval.
  apply list_elem_of_split in Hin as (l1 & l2 & ->).
  pose proof Hnd as Hnd'.
  apply NoDup_app in Hnd' as (Hnd1 & Hdis & Hnd2).
  apply NoDup_cons in Hnd2 as [Hn2 Hnd2].
  assert (Hn1 : n ∉ l1).
  { intros H. apply (Hdis n H). apply elem_of_cons. by left. }
  assert (Hdis' : forall m, m ∈ l1 -> m ∉ l2).
  { intros m H1 H2. apply (Hdis m H1). apply elem_of_cons. by right. }
  rewrite (dq_rem_middle n l1 l2 Hn1).
  apply dq_segment_app in Hseg as (Hseg1 & Hb & Hf & Hseg2).
  simpl in Hseg1.
  assert (Hv1 : forall m, m ∈ l1 -> (m < length ns)%nat).
  { intros m Hm. apply Hval, elem_of_app. by left. }
  assert (Hv2 : forall m, m ∈ l2 -> (m < length ns)%nat).
  { intros m Hm. apply Hval, elem_of_app. right. apply elem_of_cons. by right. }
  destruct (dq_rem_nodes n ns q) as (ns' & Heq & Hlen & Hpt).
  { rewrite Hb. intros m Hm.
    apply last_or_elem_of in Hm as [Hm|Hm]; [by apply Hv1 | done]. }
  { rewrite Hf. intros m Hm. by apply Hv2, first_or_elem_of. }
  rewrite Hb, Hf in Heq, Hpt.
  eexists ns', _. split; [exact Heq|]. split; [|split; [done|]].
  - split; [|split]; simpl.
    + rewrite first_or_app. rewrite first_or_app in Hh.
      destruct l1 as [|a r]; simpl in *; [done|].
      by destruct (last_or_is_Some r a) as (x & ->).
    + rewrite last_or_app. rewrite last_or_app in Ht.
      by destruct l2 as [|b r]; simpl in *.
    + apply dq_segment_app. split.
      * apply (dq_segment_redirect ns ns' None l1 (Some n)); try done.
        -- intros m Hm.
           destruct (Hpt m) as [_ ->]; [intros ->; done|].
           rewrite decide_False; [done|].
           intros Heq'. by apply first_or_elem_of, Hdis' in Heq'.
        -- intros m Hm Hl.
           destruct (Hpt m) as [-> _]; [intros ->; done|].
           by rewrite decide_False.
        -- intros m Hm Hl.
           destruct (Hpt m) as [-> _]; [intros ->; done|].
           by rewrite decide_True.
      * destruct l2 as [|b r]; [done|]. simpl in *.
        destruct Hseg2 as (H1 & H2 & H3).
        assert (Hbn : b <> n).
        { intros ->. apply Hn2, elem_of_cons. by left. }
        assert (Hb1 : b ∉ l1).
        { intros H. apply (Hdis' b H), elem_of_cons. by left. }
        apply NoDup_cons in Hnd2 as [Hbr Hnd2].
        destruct (Hpt b Hbn) as [Hfb Hbb].
        split; [by rewrite Hbb, decide_True|]. split.
        -- rewrite Hfb, decide_False; [done|].
           intros Hl. by apply last_or_elem_of in Hl as [Hl|Hl].
        -- apply (dq_segment_fields ns); [|done].
           intros m Hm.
           destruct (Hpt m) as [-> ->];
             [intros ->; apply Hn2, elem_of_cons; by right|].
           rewrite !decide_False; [done|..].
           ++ by intros [= ->].
           ++ intros Hl. apply last_or_elem_of in Hl as [Hl|Hl]; [|done].
              apply (Hdis' m Hl), elem_of_cons. by right.
  - intros m Hm.
    assert (Hmn : m <> n).
    { intros ->. apply Hm, elem_of_app. right. apply elem_of_cons. by left. }
    destruct (Hpt m Hmn) as [-> ->].
    rewrite !decide_False; [done|..].
    + intros H. apply Hm, elem_of_app. right. apply elem_of_cons. right.
      by apply first_or_elem_of.
    + intros H. apply Hm, elem_of_app. left.
      by apply last_or_elem_of in H as [H|H].
Qed.

(** [dq_remfirst] takes the head out of what a walk reads. *)
Lemma dq_remfirst_links ns q l :
  links_queue ns q l ->
  NoDup l ->
  (forall m, m ∈ l -> (m < length ns)%nat) ->
  exists ns' q',
    Linked.dq_remfirst ns q = ((dq_remfirst l).1, ns', q') /\
    links_queue ns' q' (dq_remfirst l).2 /\
    length ns' = length ns /\
    (forall m, m ∉ l -> ns' !!! m = ns !!! m).
Proof.
  intros (Hh & Ht & Hseg) Hnd Hval. unfold Linked.dq_remfirst.
  destruct l as [|a r]; simpl in *; rewrite Hh.
  - exists ns, q. by repeat split.
  - destruct Hseg as (_ & Hf & Hseg). rewrite Hf.
    apply NoDup_cons in Hnd as [Ha Hnd].
    destruct r as [|b r]; simpl in *.
    + do 2 eexists. split; [reflexivity|].
      split; [done|]. split; [by rewrite length_insert|].
      intros m Hm. rewrite list_lookup_total_insert_ne; [done|].
      intros ->. apply Hm, elem_of_cons. by left.
    + destruct Hseg as (_ & Hfb & Hseg).
      apply NoDup_cons in Hnd as [Hb Hnd].
      assert (Hab : a <> b).
      { intros ->. apply Ha, elem_of_cons. by left. }
      assert (Hvb : (b < length ns)%nat).
      { apply Hval, elem_of_cons. right. apply elem_of_cons. by left. }
      do 2 eexists. split; [reflexivity|].
      split; [|split; [by rewrite length_insert, set_blink_length|]].
      * split; [done|]. split; [done|]. simpl.
        rewrite list_lookup_total_insert_ne by done.
        rewrite set_blink_eq by done. simpl.
        split; [done|]. split; [done|].
        apply (dq_segment_frame ns); [|done].
        intros m Hm. rewrite list_lookup_total_insert_ne, set_blink_ne; try done.
        -- intros ->. done.
        -- intros ->. apply Ha, elem_of_cons. by right.
      * intros m Hm.
        rewrite list_lookup_total_insert_ne, set_blink_ne; try done.
        -- intros ->. apply Hm, elem_of_cons. right. apply elem_of_cons. by left.
        -- intros ->. apply Hm, elem_of_cons. by left.
Qed.

Lemma links_queue_fields ns ns' q l :
  (forall m, m ∈ l ->
     Linked.flink (ns' !!! m) = Linked.flink (ns !!! m) /\
     Linked.blink (ns' !!! m) = Linked.blink (ns !!! m)) ->
  links_queue ns q l -> links_queue ns' q l.
Proof.
  intros Hsame (Hh & Ht & Hseg). split; [done|]. split; [done|].
  by apply (dq_segment_fields ns).
Qed.

Lemma links_queue_walk ns q l fuel :
  links_queue ns q l ->
  (length l <= fuel)%nat ->
  Linked.dq_walk fuel ns (Linked.head q) = l.
Proof.
  intros (Hh & _ & Hseg) Hlen. rewrite Hh.
  by apply (dq_walk_segment ns None).
Qed.

Lemma queue_length_le (l : list nat) (n : nat) :
  NoDup l -> (forall m, m ∈ l -> (m < n)%nat) -> (length l <= n)%nat.
Proof.
  intros Hnd Hval. rewrite <- (length_seq n 0%nat).
  apply submseteq_length, NoDup_submseteq; [done|].
  intros m Hm. apply elem_of_seq. specialize (Hval m Hm). lia.
Qed.

(** In a pool that keeps its records in place, a walk of either linked
    queue reads the sequence of the pool. *)
Lemma represents_walk lp p :
  represents lp p -> pool_inv p ->
  Linked.free_list lp = g_free_tcp_connections p /\
  Linked.active_list lp = g_active_tcp_connections p.
Proof.
  intros (_ & Hlen & Hf & Ha & _) [I1 I2 I3 I4 _].
  unfold Linked.free_list, Linked.active_list. rewrite Hlen. split.
  - apply links_queue_walk; [done|].
    pose proof (queue_length_le _ _ I1 I3). lia.
  - apply links_queue_walk; [done|].
    pose proof (queue_length_le _ _ I2 I4). lia.
Qed.

(** The loop of [uip_tcpinit] links the records in the order it meets
    them. *)
Lemma tcpinit_loop_links n todo :
  forall linked ns free,
  links_queue ns free linked ->
  NoDup (linked ++ todo) ->
  (forall m, m ∈ linked ++ todo -> (m < n)%nat) ->
  length ns = n ->
  exists ns' free',
    Linked.tcpinit_loop todo
      {| Linked.g_tcp_connections := replicate n conn_zero;
         Linked.node := ns;
         Linked.g_free_tcp_connections := free;
         Linked.g_active_tcp_connections := Linked.dq_init;
         Linked.g_last_tcp_port := 0;
         Linked.hooks := [] |} =
    Done {| Linked.g_tcp_connections := replicate n conn_zero;
            Linked.node := ns';
            Linked.g_free_tcp_connections := free';
            Linked.g_active_tcp_connections := Linked.dq_init;
            Linked.g_last_tcp_port := 0;
            Linked.hooks := [] |} /\
    links_queue ns' free' (linked ++ todo) /\
    length ns' = n.
Proof.
  induction todo as [|i rest IH]; intros linked ns free Hq Hnd Hval Hlen.
  - exists ns, free. by rewrite app_nil_r.
  - assert (Hi : (i < n)%nat).
    { apply Hval, elem_of_app. right. apply elem_of_cons. by left. }
    pose proof Hnd as Hnd'. apply NoDup_app in Hnd' as (Hndl & Hdis & _).
    destruct (dq_addlast_links ns free linked i Hq Hndl)
      as (ns1 & free1 & Heq & Hq1 & Hlen1 & _).
    { intros H. apply (Hdis i H). apply elem_of_cons. by left. }
    { by rewrite Hlen. }
    { intros m Hm. rewrite Hlen. apply Hval, elem_of_app. by left. }
    simpl. rewrite Heq. simpl.
    unfold Linked.conn_at. simpl.
    rewrite lookup_total_replicate_2 by done.
    change (set_tcpstateflags UIP_CLOSED conn_zero) with conn_zero.
    rewrite insert_replicate.
    unfold dq_addlast in Hq1.
    destruct (IH (linked ++ [i]) ns1 free1 Hq1) as (ns' & free' & Hrun & Hq' & Hlen').
    + by rewrite <- app_assoc.
    + intros m Hm. apply Hval. by rewrite <- app_assoc in Hm.
    + by rewrite Hlen1.
    + exists ns', free'. split; [exact Hrun|].
      split; [|done]. by rewrite <- app_assoc in Hq'.
Qed.

(** [uip_tcpinit] on the linked queues leaves the pool of [uip_tcpinit] on
    the sequences. *)
Lemma linked_uip_tcpinit cfg :
  exists lp, Linked.uip_tcpinit cfg = Done lp /\ represents lp (uip_tcpinit cfg).
Proof.
  destruct (tcpinit_loop_links (CONFIG_NET_TCP_CONNS cfg)
              (seq 0%nat (CONFIG_NET_TCP_CONNS cfg)) []
              (replicate (CONFIG_NET_TCP_CONNS cfg) (Linked.mk_entry None None))
              Linked.dq_init)
    as (ns' & free' & Hrun & Hq & Hlen).
  - done.
  - apply NoDup_seq.
  - intros m Hm. apply elem_of_seq in Hm. lia.
  - by rewrite length_replicate.
  - unfold Linked.uip_tcpinit. rewrite Hrun. simpl.
    eexists. split; [reflexivity|].
    split; [done|]. split; [simpl; by rewrite length_replicate|].
    split; [done|]. by repeat split.
Qed.

(** [uip_tcpfree] of a record in use, in a pool that keeps its records in
    place: on the linked queues it leaves the pool that it leaves on the
    sequences. *)
Lemma linked_uip_tcpfree cfg lp p conn p' :
  represents lp p -> pool_inv p ->
  (conn < length (g_tcp_connections p))%nat ->
  tcpstateflags (conn_at p conn) <> UIP_CLOSED ->
  uip_tcpfree cfg p conn = Done p' ->
  exists lp', Linked.uip_tcpfree cfg lp conn = Done lp' /\ represents lp' p'.
Proof.
  intros (Hc & Hlen & Hf & Ha & Hport & Hhooks) [I1 I2 I3 I4 I5] Hlt Hs Hfree.
  destruct (decide (crefs (conn_at p conn) = 0)) as [Hz|Hz];
    [|by rewrite uip_tcpfree_assert_fails in Hfree].
  rewrite (uip_tcpfree_Done cfg p conn Hz) in Hfree. injection Hfree as <-.
  destruct (I5 conn _ (lookup_conn_at p conn Hlt)) as (Hcl & Hal & Hact & _).
  assert (Hnf : conn ∉ g_free_tcp_connections p) by (intros H; by apply Hs, Hcl).
  assert (Hdis : forall m, m ∈ g_free_tcp_connections p ->
                   m ∉ g_active_tcp_connections p).
  { intros m Hm Hm'.
    destruct (I5 m _ (lookup_conn_at p m (I3 m Hm))) as (_ & _ & _ & H4).
    by apply H4. }
  unfold Linked.uip_tcpfree, Linked.conn_at. rewrite Hc.
  fold (conn_at p conn). rewrite Hz. simpl.
  destruct (bool_decide (tcpstateflags (conn_at p conn) <> UIP_ALLOCATED)) eqn:Hb.
  - apply bool_decide_eq_true in Hb.
    destruct (dq_rem_links _ _ _ conn Ha I2 (Hact Hs Hb))
      as (ns1 & qa & Hrem & Hqa & Hlen1 & Hfr1).
    { intros m Hm. rewrite Hlen. by apply I4. }
    rewrite Hrem.
    assert (Hf1 : links_queue ns1 (Linked.g_free_tcp_connections lp)
                    (g_free_tcp_connections p)).
    { apply (links_queue_fields (Linked.node lp)); [|done].
      intros m Hm. by apply Hfr1, Hdis. }
    destruct (dq_addlast_links ns1 _ _ conn Hf1 I1 Hnf)
      as (ns2 & qf & Hadd & Hqf & Hlen2 & Hfr2).
    { by rewrite Hlen1, Hlen. }
    { intros m Hm. rewrite Hlen1, Hlen. by apply I3. }
    rewrite Hadd. simpl. eexists. split; [reflexivity|].
    split; [done|]. split; [simpl; by rewrite length_insert, Hlen2, Hlen1|].
    split; [done|]. split; [|by rewrite Hport, Hhooks]. simpl.
    apply (links_queue_fields ns1); [|done].
    intros m Hm. rewrite Hfr2; [done|..].
    + intros ->. by apply (dq_rem_NoDup conn (g_active_tcp_connections p)).
    + intros Hl. apply last_or_elem_of in Hl as [Hl|Hl]; [|done].
      apply (Hdis m Hl). by apply (dq_rem_elem_of conn).
  - apply bool_decide_eq_false in Hb.
    assert (Hst : tcpstateflags (conn_at p conn) = UIP_ALLOCATED).
    { destruct (decide (tcpstateflags (conn_at p conn) = UIP_ALLOCATED));
        [done | by destruct Hb]. }
    destruct (Hal Hst) as [_ Hna].
    destruct (dq_addlast_links (Linked.node lp) _ _ conn Hf I1 Hnf)
      as (ns2 & qf & Hadd & Hqf & Hlen2 & Hfr2).
    { by rewrite Hlen. }
    { intros m Hm. rewrite Hlen. by apply I3. }
    rewrite Hadd. simpl. eexists. split; [reflexivity|].
    split; [done|]. split; [simpl; by rewrite length_insert, Hlen2|].
    split; [done|]. split; [|by rewrite Hport, Hhooks]. simpl.
    apply (links_queue_fields (Linked.node lp)); [|done].
    intros m Hm. rewrite Hfr2; [done|..].
    + by intros ->.
    + intros Hl. apply last_or_elem_of in Hl as [Hl|Hl]; [|done].
      by apply (Hdis m Hl).
Qed.

(** ** Release of a record in use *)

(** C6, as stated, fails for a record that is closed.  In a fresh pool of
    two records both are on the free list and [crefs] of record 0 is zero.
    [uip_tcpfree] of record 0 returns; since the state is not
    [UIP_ALLOCATED], [dq_rem] unlinks the node from the queue it is on,
    the free list, while it updates the head of the active list.  After
    the call a walk of the active list, which was empty, meets records 1
    and 0, and a walk of the free list meets record 0 alone: the record has
    not been taken off the active list but put on it, and the free list is
    not the former one with the record appended. *)
Lemma uip_tcpfree_closed_record_linked :
  let cfg := build_le 2 false in
  exists p0 p1,
    Linked.uip_tcpinit cfg = Done p0 /\
    Linked.free_list p0 = [0; 1]%nat /\
    Linked.active_list p0 = [] /\
    tcpstateflags (Linked.conn_at p0 0) = UIP_CLOSED /\
    crefs (Linked.conn_at p0 0) = 0 /\
    Linked.uip_tcpfree cfg p0 0 = Done p1 /\
    tcpstateflags (Linked.conn_at p1 0) = UIP_CLOSED /\
    Linked.active_list p1 = [1; 0]%nat /\
    Linked.free_list p1 = [0%nat] /\
    ~ ((0%nat ∉ Linked.active_list p1) /\
       Linked.free_list p1 = Linked.free_list p0 ++ [0%nat]).
Proof.
  intros cfg. do 2 eexists.
  split; [vm_compute; reflexivity|].
  split; [reflexivity|]. split; [reflexivity|].
  split; [reflexivity|]. split; [reflexivity|].
  split; [vm_compute; reflexivity|].
  split; [reflexivity|]. split; [reflexivity|]. split; [reflexivity|].
  intros [_ H]. vm_compute in H. discriminate.
Qed.

(** C6: in a pool whose queues hold every record where its state says, for
    a record in use (not [UIP_CLOSED]) whose [crefs] is zero, [uip_tcpfree]
    returns; the record, which was on the active list unless it was
    [UIP_ALLOCATED], is taken off it, and an [UIP_ALLOCATED] record leaves
    the active list as it is; its state becomes [UIP_CLOSED]; it is
    appended to the free list, on which it was not.  The other records keep
    their contents and their places, and the pool still holds every record
    where its state says.  On the linked queues the call returns as well,
    and a walk of either queue reads afterwards what the sequences say. *)
Theorem uip_tcpfree_in_use cfg p conn :
  pool_inv p ->
  (conn < length (g_tcp_connections p))%nat ->
  tcpstateflags (conn_at p conn) <> UIP_CLOSED ->
  crefs (conn_at p conn) = 0 ->
  exists p', uip_tcpfree cfg p conn = Done p' /\
    tcpstateflags (conn_at p' conn) = UIP_CLOSED /\
    (conn ∉ g_free_tcp_connections p) /\
    g_free_tcp_connections p' = g_free_tcp_connections p ++ [conn] /\
    (forall j, j <> conn -> conn_at p' j = conn_at p j) /\
    (tcpstateflags (conn_at p conn) = UIP_ALLOCATED ->
     (conn ∉ g_active_tcp_connections p) /\
     g_active_tcp_connections p' = g_active_tcp_connections p) /\
    (tcpstateflags (conn_at p conn) <> UIP_ALLOCATED ->
     conn ∈ g_active_tcp_connections p /\
     g_active_tcp_connections p' = dq_rem conn (g_active_tcp_connections p) /\
     (conn ∉ g_active_tcp_connections p') /\
     (forall j, j <> conn ->
        j ∈ g_active_tcp_connections p' <-> j ∈ g_active_tcp_connections p)) /\
    pool_inv p' /\
    (forall lp, represents lp p ->
       exists lp', Linked.uip_tcpfree cfg lp conn = Done lp' /\
         represents lp' p' /\
         Linked.free_list lp' = g_free_tcp_connections p' /\
         Linked.active_list lp' = g_active_tcp_connections p').
Proof.
  intros Hinv Hlt Hs Hc.
  pose proof (uip_tcpfree_Done cfg p conn Hc) as Hfree.
  match type of Hfree with _ = Done ?q => remember q as p' eqn:Hp' end.
  pose proof (pool_inv_free cfg p conn p' Hfree Hlt Hs Hinv) as Hinv'.
  destruct (inv_in_place p Hinv conn _ (lookup_conn_at p conn Hlt))
    as (Hf & Hal & Hact & _).
  exists p'. split; [exact Hfree|].
  split; [rewrite Hp'; unfold conn_at; simpl;
          by rewrite list_lookup_total_insert_eq|].
  split; [intros Hin; by apply Hs, Hf|].
  split; [by rewrite Hp'|].
  split; [intros j Hj; rewrite Hp'; unfold conn_at; simpl;
          by rewrite list_lookup_total_insert_ne|].
  split; [|split; [|split; [exact Hinv'|]]].
  - intros Ha. split; [by apply Hal|]. rewrite Hp'. simpl.
    by rewrite bool_decide_eq_false_2 by (intros H; by apply H).
  - intros Hna.
    assert (Hact' : g_active_tcp_connections p' =
                    dq_rem conn (g_active_tcp_connections p)).
    { rewrite Hp'. simpl. by rewrite bool_decide_eq_true_2. }
    rewrite Hact'.
    split; [by apply Hact|]. split; [done|]. split.
    + apply dq_rem_NoDup, Hinv.
    + intros j Hj. split; [apply dq_rem_elem_of | by apply dq_rem_other].
  - intros lp Hrep.
    destruct (linked_uip_tcpfree cfg lp p conn p' Hrep Hinv Hlt Hs Hfree)
      as (lp' & Hrun & Hrep').
    exists lp'. split; [done|]. split; [done|].
    by apply represents_walk.
Qed.

Lemma uip_tcpfree_in_use_witness :
  let cfg := build_be 2 false in
  let syn := {| srcipaddr := 1; srcport := 80; destport := 8080; seqno := 7 |} in
  exists p1 p2 lp2,
    uip_tcpaccept cfg (uip_tcpinit cfg) syn = Done (p1, Some 0%nat) /\
    tcpstateflags (conn_at p1 0) = UIP_SYN_RCVD /\
    g_free_tcp_connections p1 = [1%nat] /\
    g_active_tcp_connections p1 = [0%nat] /\
    uip_tcpfree cfg p1 0 = Done p2 /\
    tcpstateflags (conn_at p2 0) = UIP_CLOSED /\
    g_free_tcp_connections p2 = [1%nat; 0%nat] /\
    g_active_tcp_connections p2 = [] /\
    Linked.uip_tcpfree cfg
      {| Linked.g_tcp_connections := g_tcp_connections p1;
         Linked.node := [Linked.mk_entry None None; Linked.mk_entry None None];
         Linked.g_free_tcp_connections :=
           {| Linked.head := Some 1%nat; Linked.tail := Some 1%nat |};
         Linked.g_active_tcp_connections :=
           {| Linked.head := Some 0%nat; Linked.tail := Some 0%nat |};
         Linked.g_last_tcp_port := g_last_tcp_port p1;
         Linked.hooks := hooks p1 |} 0 = Done lp2 /\
    Linked.free_list lp2 = [1%nat; 0%nat] /\
    Linked.active_list lp2 = [].
Proof.
  intros cfg syn. eexists.
  assert (H1 : uip_tcpaccept cfg (uip_tcpinit cfg) syn = Done (_, Some 0%nat))
    by (vm_compute; reflexivity).
  match type of H1 with
  | _ = Done (?q1, _) =>
      assert (Hinv : pool_inv q1);
      [ apply (reachable_pool_inv cfg);
        apply (reachable_run cfg free_in_use _ (op_accept syn) _
                 (reachable_init cfg free_in_use)); [done | done |];
        unfold run; rewrite H1; reflexivity
      | destruct (uip_tcpfree_in_use cfg q1 0%nat Hinv)
          as (p2 & F1 & F2 & _ & F3 & _ & _ & F4 & _ & F5);
        [ simpl; lia | vm_compute; discriminate | reflexivity | ] ]
  end.
  destruct F4 as (_ & F4 & _); [vm_compute; discriminate|].
  edestruct F5 as (lp2 & L1 & _ & L2 & L3);
    [|exists p2, lp2; split; [exact H1|]; split; [reflexivity|];
      split; [reflexivity|]; split; [reflexivity|]; split; [exact F1|];
      split; [exact F2|]; split; [exact F3|]; split; [exact F4|];
      split; [exact L1|]; split; [by rewrite L2, F3 | by rewrite L3, F4]].
  by repeat split.
Defined.

(** ** The ephemeral port counter *)

Lemma selectport_loop_unfold cfg p fuel last :
  selectport_loop cfg p (S fuel) last =
  match uip_tcplistener p (htons cfg (next_port last)) with
  | Some _ => selectport_loop cfg p fuel (next_port last)
  | None => Some ((last + 1) mod 65536, next_port last)
  end.
Proof. reflexivity. Qed.

Lemma uip_selectport_zero cfg p :
  uip_selectport cfg p 0 =
  match selectport_loop cfg p selectport_rounds (g_last_tcp_port p) with
  | Some (portno, last) => Done (set_last_tcp_port last p, Port portno)
  | None => Diverges
  end.
Proof. reflexivity. Qed.

(** The counter after [n] rounds, as long as no value comes twice. *)
Lemma iter_next_port n c :
  1024 <= c < 32000 -> Z.of_nat n <= 27904 ->
  Nat.iter n next_port c =
  if c + Z.of_nat n <? 32000 then c + Z.of_nat n
  else c + Z.of_nat n - 27904.
Proof.
  intros Hc. induction n as [|n IH]; intros Hn.
  - simpl. rewrite Z.add_0_r. destruct (Z.ltb_spec c 32000); lia.
  - rewrite Nat.iter_succ, IH by lia. unfold next_port.
    destruct (Z.ltb_spec (c + Z.of_nat n) 32000) as [H1|H1];
      destruct (Z.ltb_spec (c + Z.of_nat (S n)) 32000) as [H2|H2]; try lia.
    + rewrite Z.mod_small by lia.
      destruct (Z.leb_spec 32000 (c + Z.of_nat n + 1)); lia.
    + rewrite Z.mod_small by lia.
      destruct (Z.leb_spec 32000 (c + Z.of_nat n + 1)); lia.
    + rewrite Z.mod_small by lia.
      destruct (Z.leb_spec 32000 (c + Z.of_nat n - 27904 + 1)); lia.
Qed.

Lemma iter_next_port_range n c :
  1024 <= c < 32000 -> 1 <= Z.of_nat n <= 27904 ->
  1025 <= Nat.iter n next_port c <= 31999 /\
  (4095 <= c -> 4096 <= Nat.iter n next_port c).
Proof.
  intros Hc Hn. rewrite iter_next_port by lia.
  destruct (Z.ltb_spec (c + Z.of_nat n) 32000); lia.
Qed.

Lemma iter_next_port_inj i j c :
  1024 <= c < 32000 ->
  1 <= Z.of_nat i <= 27904 -> 1 <= Z.of_nat j <= 27904 ->
  Nat.iter i next_port c = Nat.iter j next_port c -> i = j.
Proof.
  intros Hc Hi Hj. rewrite !iter_next_port by lia.
  destruct (Z.ltb_spec (c + Z.of_nat i) 32000);
    destruct (Z.ltb_spec (c + Z.of_nat j) 32000); lia.
Qed.

Lemma htons_inj cfg x y :
  byteorder_ok cfg -> 0 <= x < 65536 -> 0 <= y < 65536 ->
  htons cfg x = htons cfg y -> x = y.
Proof.
  intros Hb Hx Hy Heq.
  destruct (Hb x Hx) as [_ <-]. destruct (Hb y Hy) as [_ <-]. by rewrite Heq.
Qed.

(** More candidate ports than records: one of them is in use by none. *)
Lemma some_port_free cfg p c :
  byteorder_ok cfg -> 1024 <= c < 32000 ->
  Z.of_nat (length (g_tcp_connections p)) < 27904 ->
  exists j, (1 <= j <= S (length (g_tcp_connections p)))%nat /\
    ~ port_in_use p (htons cfg (Nat.iter j next_port c)).
Proof.
  intros Hb Hc Hlen.
  set (n := length (g_tcp_connections p)) in *.
  set (cand := (fun j => htons cfg (Nat.iter j next_port c)) <$> seq 1 (S n)).
  destruct (decide (Forall (fun x => is_Some (uip_tcplistener p x)) cand))
    as [Hall|Hsome].
  - exfalso.
    assert (Hnd : NoDup cand).
    { apply NoDup_fmap_2_strong; [|apply NoDup_seq].
      intros i j Hi Hj Heq. apply elem_of_seq in Hi, Hj.
      apply (iter_next_port_inj i j c); [done | lia | lia |].
      apply (htons_inj cfg); [done | | | done].
      - destruct (iter_next_port_range i c); [done | lia | lia].
      - destruct (iter_next_port_range j c); [done | lia | lia]. }
    assert (Hsub : cand ⊆+ lport <$> g_tcp_connections p).
    { apply NoDup_submseteq; [done|]. intros x Hx.
      rewrite Forall_forall in Hall. destruct (Hall x Hx) as [k Hk].
      assert (Hin : port_in_use p x)
        by (apply uip_tcplistener_in_use; by eexists).
      destruct Hin as (i & conn & Hi & _ & <-).
      apply list_elem_of_fmap. exists conn. split; [done|].
      by eapply list_elem_of_lookup_2. }
    apply submseteq_length in Hsub.
    unfold cand in Hsub. rewrite !length_fmap, length_seq in Hsub.
    fold n in Hsub. lia.
  - apply not_Forall_Exists in Hsome; [|intros x; apply _].
    apply Exists_exists in Hsome as (x & Hx & Hfree).
    apply list_elem_of_fmap in Hx as (j & -> & Hj).
    apply elem_of_seq in Hj. exists j. split; [lia|].
    intros Hin. apply Hfree. apply uip_tcplistener_in_use in Hin as [k Hk].
    by exists k.
Qed.

(** The first candidate that is free. *)
Lemma first_port_free p (cand : nat -> Z) n :
  (exists j, (1 <= j <= n)%nat /\ ~ port_in_use p (cand j)) ->
  exists k, (1 <= k <= n)%nat /\ ~ port_in_use p (cand k) /\
    forall j, (1 <= j < k)%nat -> port_in_use p (cand j).
Proof.
  assert (Hsearch :
    (forall j, (1 <= j <= n)%nat -> port_in_use p (cand j)) \/
    exists k, (1 <= k <= n)%nat /\ ~ port_in_use p (cand k) /\
      forall j, (1 <= j < k)%nat -> port_in_use p (cand j)).
  { induction n as [|n [IH|(k & Hk & Hkf & Hkb)]].
    - left. intros j Hj. lia.
    - destruct (uip_tcplistener p (cand (S n))) as [r|] eqn:E.
      + left. intros j Hj. destruct (decide (j = S n)) as [->|Hne].
        * apply uip_tcplistener_in_use. by exists r.
        * apply IH. lia.
      + right. exists (S n). split; [lia|].
        split; [by apply uip_tcplistener_free|].
        intros j Hj. apply IH. lia.
    - right. exists k. split; [lia | done]. }
  intros (j & Hj & Hfree). destruct Hsearch as [Hall|Hk]; [|done].
  exfalso. by apply Hfree, Hall.
Qed.

(** The loop stops at the first free candidate when it has rounds enough
    to reach it. *)
Lemma selectport_loop_stops cfg p k : forall fuel c,
  (1 <= k <= fuel)%nat ->
  (forall j, (1 <= j < k)%nat ->
     port_in_use p (htons cfg (Nat.iter j next_port c))) ->
  ~ port_in_use p (htons cfg (Nat.iter k next_port c)) ->
  selectport_loop cfg p fuel c =
  Some ((Nat.iter (k - 1) next_port c + 1) mod 65536, Nat.iter k next_port c).
Proof.
  induction k as [|k IH]; intros fuel c Hk Hused Hfree; [lia|].
  destruct fuel as [|fuel]; [lia|]. rewrite selectport_loop_unfold.
  destruct (decide (k = 0%nat)) as [->|Hk0].
  - simpl in *. apply uip_tcplistener_free in Hfree. by rewrite Hfree.
  - assert (Hfirst : port_in_use p (htons cfg (next_port c)))
      by (apply (Hused 1%nat); lia).
    apply uip_tcplistener_in_use in Hfirst as [r ->].
    rewrite (IH fuel (next_port c)).
    + f_equal. f_equal.
      * replace (S k - 1)%nat with (S (k - 1)) by lia.
        by rewrite Nat.iter_succ_r.
      * by rewrite Nat.iter_succ_r.
    + lia.
    + intros j Hj. rewrite <- Nat.iter_succ_r. apply Hused. lia.
    + by rewrite <- Nat.iter_succ_r.
Qed.

(** C3, as amended: in a pool whose counter lies in 1024..31999 and which
    has fewer records than the 27904 ports of the cycle, a call of the port
    selector with requested port 0 returns.  The counter has been advanced
    by repeated increment, going back to 4096 when it reaches 32000, past
    every value that is the local port of a record that is not closed, to
    the first value that is the local port of none.  The counter then lies
    in 1025..31999, and in 4096..31999 if it started from 4095 or more;
    unless the last increment was the one from 31999, the port returned is
    this value of the counter. *)
Theorem uip_selectport_ephemeral cfg p :
  byteorder_ok cfg ->
  1024 <= g_last_tcp_port p < 32000 ->
  Z.of_nat (length (g_tcp_connections p)) < 27904 ->
  exists port last k,
    uip_selectport cfg p 0 = Done (set_last_tcp_port last p, Port port) /\
    (1 <= k)%nat /\
    last = Nat.iter k next_port (g_last_tcp_port p) /\
    (forall j, (1 <= j < k)%nat ->
       port_in_use p (htons cfg (Nat.iter j next_port (g_last_tcp_port p)))) /\
    ~ port_in_use p (htons cfg last) /\
    1025 <= last <= 31999 /\
    (4095 <= g_last_tcp_port p -> 4096 <= last) /\
    (Nat.iter (k - 1) next_port (g_last_tcp_port p) < 31999 -> port = last).
Proof.
  intros Hb Hc Hlen. set (c := g_last_tcp_port p) in *.
  destruct (first_port_free p (fun j => htons cfg (Nat.iter j next_port c))
              (S (length (g_tcp_connections p))))
    as (k & Hk & Hfree & Hused); [by apply some_port_free|].
  exists ((Nat.iter (k - 1) next_port c + 1) mod 65536),
         (Nat.iter k next_port c), k.
  assert (Hloop : selectport_loop cfg p selectport_rounds c =
                  Some ((Nat.iter (k - 1) next_port c + 1) mod 65536,
                        Nat.iter k next_port c)).
  { apply selectport_loop_stops; [|done|done].
    unfold selectport_rounds. lia. }
  destruct (iter_next_port_range k c) as [Hrange Hlow]; [done | lia |].
  split.
  { rewrite uip_selectport_zero. fold c. by rewrite Hloop. }
  repeat split; try done; try lia.
  intros Hprev.
  assert (Hprev' : 1024 <= Nat.iter (k - 1) next_port c).
  { destruct (decide (k = 1%nat)) as [->|Hk1]; [simpl; lia|].
    destruct (iter_next_port_range (k - 1) c); [done | lia | lia]. }
  destruct k as [|k']; [lia|].
  replace (S k' - 1)%nat with k' in * by lia.
  rewrite Nat.iter_succ. set (prev := Nat.iter k' next_port c) in *.
  unfold next_port. rewrite Z.mod_small by lia.
  destruct (Z.leb_spec 32000 (prev + 1)); [lia|done].
Qed.

(** The little-endian and the big-endian conversions qualify. *)
Lemma all_from_spec test n : forall x y,
  all_from test n x = true -> x <= y < x + Z.of_nat n -> test y = true.
Proof.
  induction n as [|n IH]; intros x y Hall Hy; [lia|].
  simpl in Hall. apply andb_true_iff in Hall as [Hx Hrest].
  destruct (decide (y = x)) as [->|Hne]; [done|].
  apply (IH (x + 1)); [done | lia].
Qed.

Lemma swap16_table :
  all_from (fun x => (0 <=? swap16 x) && (swap16 x <? 65536)
                     && (swap16 (swap16 x) =? x))
           (Z.to_nat 65536) 0 = true.
Proof. vm_compute. reflexivity. Qed.

Lemma build_le_byteorder_ok conns linger :
  byteorder_ok (build_le conns linger).
Proof.
  intros x Hx. simpl.
  pose proof (all_from_spec _ _ 0 x swap16_table) as Htab.
  cbv beta in Htab.
  rewrite Z2Nat.id in Htab by lia. specialize (Htab ltac:(lia)).
  apply andb_true_iff in Htab as [Htab H3].
  apply andb_true_iff in Htab as [H1 H2].
  apply Z.leb_le in H1. apply Z.ltb_lt in H2. apply Z.eqb_eq in H3.
  done.
Qed.

Lemma build_be_byteorder_ok conns linger :
  byteorder_ok (build_be conns linger).
Proof. intros x Hx. simpl. done. Qed.

Lemma uip_selectport_ephemeral_witness :
  let cfg := build_le 2 false in
  exists port last,
    uip_selectport cfg (uip_tcpinit cfg) 0 =
      Done (set_last_tcp_port last (uip_tcpinit cfg), Port port) /\
    1025 <= last <= 31999.
Proof.
  intros cfg.
  destruct (uip_selectport_ephemeral cfg (uip_tcpinit cfg))
    as (port & last & k & H1 & _ & _ & _ & _ & H2 & _).
  - apply build_le_byteorder_ok.
  - simpl; lia.
  - simpl; lia.
  - exists port, last. split; [exact H1 | exact H2].
Defined.

(** C3, as stated, fails on the first call after [uip_tcpinit]: the counter
    starts at 1024 and the port returned is 1025, below 4096. *)
Lemma uip_selectport_first_port_below_range :
  let cfg := build_le 2 false in
  uip_selectport cfg (uip_tcpinit cfg) 0 =
    Done (set_last_tcp_port 1025 (uip_tcpinit cfg), Port 1025) /\
  ~ (4096 <= 1025 <= 31999).
Proof. intros cfg. split; [vm_compute; reflexivity | lia]. Qed.

(** On the round that takes the counter from 31999 back to 4096, [portno]
    has been assigned before the range check: it is 32000, and the in-use
    check has looked at 4096. *)
Lemma uip_selectport_wraparound_round :
  let cfg := build_le 2 false in
  let p := set_last_tcp_port 31999 (uip_tcpinit cfg) in
  uip_selectport cfg p 0 = Done (set_last_tcp_port 4096 p, Port 32000).
Proof. intros cfg p. vm_compute. reflexivity. Qed.

(** The counter never leaves 1024..31999. *)
Lemma selectport_loop_range cfg p fuel : forall c portno last,
  selectport_loop cfg p fuel c = Some (portno, last) ->
  1024 <= c < 32000 -> 1025 <= last < 32000.
Proof.
  induction fuel as [|fuel IH]; intros c portno last; [done|].
  rewrite selectport_loop_unfold. intros Hloop Hc.
  assert (Hn : 1025 <= next_port c < 32000).
  { unfold next_port. rewrite Z.mod_small by lia.
    destruct (Z.leb_spec 32000 (c + 1)); lia. }
  destruct (uip_tcplistener p (htons cfg (next_port c))).
  - apply (IH _ _ _ Hloop). lia.
  - by injection Hloop as _ <-.
Qed.

Lemma uip_selectport_range cfg p portno p' r :
  uip_selectport cfg p portno = Done (p', r) ->
  1024 <= g_last_tcp_port p < 32000 ->
  1024 <= g_last_tcp_port p' < 32000.
Proof.
  unfold uip_selectport. intros Hsel Hc. destruct (portno =? 0).
  - destruct (selectport_loop cfg p selectport_rounds (g_last_tcp_port p))
      as [[portno' last]|] eqn:Hloop; [|done].
    injection Hsel as <- _. simpl.
    apply selectport_loop_range in Hloop; lia.
  - by destruct (uip_tcplistener p portno); injection Hsel as <- _.
Qed.

Lemma uip_tcpalloc_last_tcp_port cfg p p' r :
  uip_tcpalloc cfg p = Done (p', r) ->
  g_last_tcp_port p' = g_last_tcp_port p.
Proof.
  assert (Hpop : forall q c rest q' r',
            g_free_tcp_connections q = c :: rest ->
            uip_tcpalloc cfg q = Done (q', r') ->
            g_last_tcp_port q' = g_last_tcp_port q).
  { intros q c rest q' r' Hf Hal.
    rewrite (uip_tcpalloc_pop cfg q c rest Hf) in Hal.
    by injection Hal as <- _. }
  intros Hal.
  destruct (g_free_tcp_connections p) as [|c rest] eqn:Hf;
    [|by eapply Hpop].
  destruct (CONFIG_NET_SOLINGER cfg) eqn:Hl.
  - rewrite (uip_tcpalloc_empty_linger cfg p Hl Hf) in Hal.
    by injection Hal as <- _.
  - rewrite (uip_tcpalloc_empty cfg p Hl Hf) in Hal.
    destruct (reclaim_scan p (g_active_tcp_connections p) None) as [v|];
      [|by injection Hal as <- _].
    destruct (decide (crefs (conn_at p v) = 0)) as [Hc|Hc];
      [|by rewrite uip_tcpfree_assert_fails in Hal].
    rewrite (uip_tcpfree_Done cfg p v Hc) in Hal. simpl in Hal.
    rewrite Hf in Hal. eapply Hpop in Hal; [|simpl; reflexivity].
    by rewrite Hal.
Qed.

(** X15: the port counter stays in 1024..31999 in every pool reached from
    [uip_tcpinit], whatever calls are made and whatever records they
    release. *)
Lemma reachable_last_tcp_port cfg may_free p :
  reachable cfg may_free p -> 1024 <= g_last_tcp_port p < 32000.
Proof.
  induction 1 as [|p o p' Hreach IH Hvalid Hfree Hrun]; [simpl; lia|].
  destruct o as [|conn|buf|conn addr|conn addr]; simpl in Hrun.
  - destruct (uip_tcpalloc cfg p) as [[p1 r]| |] eqn:Hal; simpl in Hrun;
      try done.
    injection Hrun as <-. by rewrite (uip_tcpalloc_last_tcp_port _ _ _ _ Hal).
  - destruct (decide (crefs (conn_at p conn) = 0)) as [Hc|Hc];
      [|by rewrite uip_tcpfree_assert_fails in Hrun].
    rewrite (uip_tcpfree_Done cfg p conn Hc) in Hrun.
    by injection Hrun as <-.
  - unfold uip_tcpaccept in Hrun.
    destruct (uip_tcpalloc cfg p) as [[p1 [i|]]| |] eqn:Hal; simpl in Hrun;
      try done; injection Hrun as <-; simpl;
      by rewrite (uip_tcpalloc_last_tcp_port _ _ _ _ Hal).
  - unfold uip_tcpconnect in Hrun.
    destruct conn as [i|]; [|by injection Hrun as <-].
    case_bool_decide; [by injection Hrun as <-|].
    destruct (uip_selectport cfg p (ntohs cfg (lport (conn_at p i))))
      as [[p1 [port|e]]| |] eqn:Hsel; simpl in Hrun; try done;
      injection Hrun as <-; simpl;
      by apply (uip_selectport_range _ _ _ _ _ Hsel).
  - unfold uip_tcpbind in Hrun.
    destruct (uip_selectport cfg p (ntohs cfg (sin_port addr)))
      as [[p1 [port|e]]| |] eqn:Hsel; simpl in Hrun; try done;
      injection Hrun as <-; simpl;
      by apply (uip_selectport_range _ _ _ _ _ Hsel).
Qed.

(** ** A loop that runs out of rounds never ends *)

Lemma next_port_cycle d : 4096 <= d < 32000 -> 4096 <= next_port d < 32000.
Proof.
  intros Hd. unfold next_port. rewrite Z.mod_small by lia.
  destruct (Z.leb_spec 32000 (d + 1)); lia.
Qed.

Lemma iter_next_port_cycle n d :
  4096 <= d < 32000 -> 4096 <= Nat.iter n next_port d < 32000.
Proof.
  intros Hd. induction n as [|n IH]; [done|].
  rewrite Nat.iter_succ. by apply next_port_cycle.
Qed.

(** Every value the counter takes is taken within the first 30976
    rounds. *)
Lemma iter_next_port_early c j :
  1024 <= c < 32000 -> (1 <= j)%nat ->
  exists j', 1 <= Z.of_nat j' <= 30976 /\
    Nat.iter j' next_port c = Nat.iter j next_port c.
Proof.
  intros Hc. induction (lt_wf j) as [j _ IH]. intros Hj.
  destruct (decide (Z.of_nat j <= 30976)) as [Hle|Hgt];
    [exists j; split; [lia | done]|].
  set (m := (j - Z.to_nat 27904)%nat).
  assert (Hm : Z.of_nat m = Z.of_nat j - 27904) by (unfold m; lia).
  destruct (IH m) as (j' & Hj' & Heq); [lia | lia|].
  exists j'. split; [done|]. rewrite Heq.
  assert (Hjm : j = (Z.to_nat 27904 + m)%nat) by lia.
  clearbody m. subst j. rewrite Nat.iter_add.
  assert (Hd : 4096 <= Nat.iter m next_port c < 32000).
  { replace m with ((m - Z.to_nat 3072) + Z.to_nat 3072)%nat by lia.
    rewrite Nat.iter_add. apply iter_next_port_cycle.
    rewrite iter_next_port by lia.
    destruct (Z.ltb_spec (c + Z.of_nat (Z.to_nat 3072)) 32000); lia. }
  rewrite (iter_next_port (Z.to_nat 27904) (Nat.iter m next_port c)) by lia.
  destruct (Z.ltb_spec (Nat.iter m next_port c + Z.of_nat (Z.to_nat 27904))
              32000); lia.
Qed.

Lemma selectport_loop_None cfg p fuel : forall c,
  selectport_loop cfg p fuel c = None <->
  forall j, (1 <= j <= fuel)%nat ->
    port_in_use p (htons cfg (Nat.iter j next_port c)).
Proof.
  induction fuel as [|fuel IH]; intros c.
  - split; [intros _ j Hj; lia | done].
  - rewrite selectport_loop_unfold.
    destruct (uip_tcplistener p (htons cfg (next_port c))) as [r|] eqn:E.
    + rewrite IH. split.
      * intros H j Hj. destruct (decide (j = 1%nat)) as [->|Hne].
        -- apply uip_tcplistener_in_use. by exists r.
        -- replace j with (S (j - 1)) by lia. rewrite Nat.iter_succ_r.
           apply H. lia.
      * intros H j Hj. rewrite <- Nat.iter_succ_r. apply H. lia.
    + split; [done|]. intros H. exfalso.
      apply uip_tcplistener_free in E. apply E, (H 1%nat). lia.
Qed.

(** When [uip_selectport] is found to diverge, the loop of the function
    ends after no number of rounds. *)
Lemma uip_selectport_diverges cfg p :
  1024 <= g_last_tcp_port p < 32000 ->
  uip_selectport cfg p 0 = Diverges ->
  forall fuel, selectport_loop cfg p fuel (g_last_tcp_port p) = None.
Proof.
  intros Hc Hdiv fuel. rewrite uip_selectport_zero in Hdiv.
  destruct (selectport_loop cfg p selectport_rounds (g_last_tcp_port p))
    as [[portno last]|] eqn:Hloop; [done|].
  rewrite selectport_loop_None in Hloop. apply selectport_loop_None.
  intros j Hj.
  destruct (iter_next_port_early (g_last_tcp_port p) j) as (j' & Hj' & <-);
    [done | lia|].
  apply Hloop. unfold selectport_rounds. lia.
Qed.

(** ** Lookup by segment *)

(** X1: [uip_tcpactive] returns the first record of the active list that
    is not closed and whose local port, remote port and remote address are
    the segment's destination port, source port and source address; it
    returns no record exactly when no record of the active list is such.
    Records that are on no list or on the free list are not looked at. *)
Theorem uip_tcpactive_first_match p buf :
  (forall c, uip_tcpactive p buf = Some c <->
     exists l1 l2, g_active_tcp_connections p = l1 ++ c :: l2 /\
       segment_matches (conn_at p c) buf = true /\
       forall j, j ∈ l1 -> segment_matches (conn_at p j) buf = false) /\
  (uip_tcpactive p buf = None <->
     forall j, j ∈ g_active_tcp_connections p ->
       segment_matches (conn_at p j) buf = false).
Proof.
  unfold uip_tcpactive. generalize (g_active_tcp_connections p) as l.
  induction l as [|t rest [IHs IHn]]; simpl.
  - split.
    + intros c. split; [done|]. intros (l1 & l2 & H & _). by destruct l1.
    + split; [|done]. intros _ j Hj. by apply elem_of_nil in Hj.
  - destruct (segment_matches (conn_at p t) buf) eqn:Ht.
    + split.
      * intros c. split.
        -- intros [= <-]. exists [], rest. repeat split; [done|].
           intros j Hj. by apply elem_of_nil in Hj.
        -- intros (l1 & l2 & H & Hc & Hl1). destruct l1 as [|t' l1].
           ++ by injection H as ->.
           ++ injection H as <- _. rewrite Hl1 in Ht; [done|].
              apply elem_of_cons; auto.
      * split; [done|]. intros H. rewrite H in Ht; [done|].
        apply elem_of_cons; auto.
    + split.
      * intros c. rewrite IHs. split.
        -- intros (l1 & l2 & -> & Hc & Hl1). exists (t :: l1), l2.
           repeat split; [done|].
           intros j [->|Hj]%elem_of_cons; [done | by apply Hl1].
        -- intros (l1 & l2 & H & Hc & Hl1). destruct l1 as [|t' l1].
           ++ injection H as -> _. congruence.
           ++ injection H as <- ->. exists l1, l2. repeat split; [done|].
              intros j Hj. apply Hl1, elem_of_cons; auto.
      * rewrite IHn. split.
        -- intros H j [->|Hj]%elem_of_cons; [done | by apply H].
        -- intros H j Hj. apply H, elem_of_cons; auto.
Qed.

(** ** The listener of a port *)

(** X2: [uip_tcplistener] returns the lowest slot of the array whose
    record is not closed and has the given local port, whatever list the
    record is on, and no slot exactly when the array has no such record. *)
Theorem uip_tcplistener_lowest_slot p portno :
  (forall k, uip_tcplistener p portno = Some k <->
     (exists c, g_tcp_connections p !! k = Some c /\
        tcpstateflags c <> UIP_CLOSED /\ lport c = portno) /\
     (forall j c, (j < k)%nat -> g_tcp_connections p !! j = Some c ->
        tcpstateflags c = UIP_CLOSED \/ lport c <> portno)) /\
  (uip_tcplistener p portno = None <->
     forall j c, g_tcp_connections p !! j = Some c ->
       tcpstateflags c = UIP_CLOSED \/ lport c <> portno).
Proof.
  split; [|apply tcplistener_from_None].
  unfold uip_tcplistener.
  assert (Hgen : forall conns i k,
    tcplistener_from i conns portno = Some k <->
    exists n, k = (i + n)%nat /\
      (exists c, conns !! n = Some c /\
         tcpstateflags c <> UIP_CLOSED /\ lport c = portno) /\
      (forall j c, (j < n)%nat -> conns !! j = Some c ->
         tcpstateflags c = UIP_CLOSED \/ lport c <> portno)).
  { induction conns as [|c0 rest IH]; intros i k; simpl.
    - split; [done|]. intros (n & _ & (c & Hc & _) & _).
      by rewrite lookup_nil in Hc.
    - destruct (bool_decide (tcpstateflags c0 <> UIP_CLOSED)
                && (lport c0 =? portno)) eqn:Hb.
      + apply andb_true_iff in Hb as [Hs Hp].
        apply bool_decide_eq_true in Hs. apply Z.eqb_eq in Hp.
        split.
        * intros [= <-]. exists 0%nat. split; [lia|]. split; [by exists c0|].
          intros j c Hj. lia.
        * intros (n & -> & _ & Hlow). destruct n as [|n]; [f_equal; lia|].
          destruct (Hlow 0%nat c0); [lia | done | done | done].
      + assert (Hc0 : tcpstateflags c0 = UIP_CLOSED \/ lport c0 <> portno).
        { apply andb_false_iff in Hb as [Hs|Hp].
          - apply bool_decide_eq_false in Hs. left.
            by destruct (decide (tcpstateflags c0 = UIP_CLOSED)).
          - right. by apply Z.eqb_neq. }
        rewrite IH. split.
        * intros (n & -> & Hn & Hlow). exists (S n). split; [lia|].
          split; [done|]. intros [|j] c Hj Hc; simpl in Hc.
          -- by injection Hc as <-.
          -- apply (Hlow j); [lia | done].
        * intros (n & -> & (c & Hc & Hs & Hp) & Hlow).
          destruct n as [|n].
          -- simpl in Hc. injection Hc as <-. destruct Hc0; done.
          -- exists n. split; [lia|]. split; [by exists c|].
             intros j c' Hj Hc'. apply (Hlow (S j)); [lia | done]. }
  intros k. rewrite Hgen. split.
  - intros (n & -> & H). done.
  - intros H. exists k. done.
Qed.

(** ** Walking the active list *)

Lemma flink_in_middle l1 c l2 :
  c ∉ l1 -> flink_in (l1 ++ c :: l2) c = head l2.
Proof.
  induction l1 as [|n l1 IH]; simpl; intros Hc.
  - by case_decide.
  - apply not_elem_of_cons in Hc as [Hne Hc].
    case_decide; [congruence | by apply IH].
Qed.

Lemma node_flink_active p l1 c l2 :
  g_active_tcp_connections p = l1 ++ c :: l2 ->
  NoDup (g_active_tcp_connections p) ->
  node_flink p c = head l2.
Proof.
  intros Hact Hnd. unfold node_flink.
  destruct (decide (c ∈ g_active_tcp_connections p)) as [Hin|Hnin].
  - rewrite Hact. apply flink_in_middle.
    rewrite Hact in Hnd. apply NoDup_app in Hnd as (_ & Hdis & _).
    intros Hc. apply (Hdis c Hc). apply elem_of_cons; auto.
  - exfalso. apply Hnin. rewrite Hact.
    apply elem_of_app. right. apply elem_of_cons; auto.
Qed.

(** X3: when no record is linked twice on the active list, the loop
    [while ((conn = uip_nexttcpconn(conn)))] that starts from the null
    cursor visits the records of the active list, each once and in the
    order of the list, and then gets the null pointer: it ends after as
    many rounds as the list has records. *)
Theorem uip_nexttcpconn_walk p n :
  NoDup (g_active_tcp_connections p) ->
  (length (g_active_tcp_connections p) < n)%nat ->
  nexttcpconn_walk p n None = g_active_tcp_connections p.
Proof.
  intros Hnd Hn.
  assert (Hfrom : forall l2 l1 c m,
    g_active_tcp_connections p = l1 ++ c :: l2 ->
    (length l2 < m)%nat ->
    nexttcpconn_walk p m (Some c) = l2).
  { induction l2 as [|d l2 IH]; intros l1 c m Hact Hm;
      (destruct m as [|m]; [simpl in Hm; lia|]); simpl;
      rewrite (node_flink_active p l1 c _ Hact Hnd); [done|].
    simpl. f_equal. apply (IH (l1 ++ [c])).
    - by rewrite <- app_assoc.
    - simpl in Hm. lia. }
  destruct n as [|n]; [lia|]. simpl.
  destruct (g_active_tcp_connections p) as [|c l2] eqn:Hact; [done|].
  simpl. f_equal. apply (Hfrom l2 [] c n); [done | simpl in Hn; lia].
Qed.

Lemma uip_nexttcpconn_walk_witness :
  let p := {| g_tcp_connections :=
                [set_tcpstateflags UIP_ESTABLISHED conn_zero;
                 set_tcpstateflags UIP_CLOSED conn_zero;
                 set_tcpstateflags UIP_SYN_SENT conn_zero];
              g_free_tcp_connections := [1%nat];
              g_active_tcp_connections := [2; 0]%nat;
              g_last_tcp_port := 1024; hooks := [] |} in
  nexttcpconn_walk p 3 None = [2; 0]%nat.
Proof.
  intros p. apply (uip_nexttcpconn_walk p 3).
  - simpl. apply NoDup_cons. split.
    + intros H. apply list_elem_of_singleton in H. discriminate.
    + apply NoDup_singleton.
  - simpl. lia.
Defined.

(** ** Accept, lookup, release *)

Lemma tcpactive_from_None p l buf :
  tcpactive_from p l buf = None <->
  forall j, j ∈ l -> segment_matches (conn_at p j) buf = false.
Proof.
  induction l as [|t rest IH]; simpl.
  - split; [|done]. intros _ j Hj. by apply elem_of_nil in Hj.
  - destruct (segment_matches (conn_at p t) buf) eqn:Ht.
    + split; [done|]. intros H. rewrite H in Ht; [done|].
      apply elem_of_cons; auto.
    + rewrite IH. split.
      * intros H j [->|Hj]%elem_of_cons; [done | by apply H].
      * intros H j Hj. apply H, elem_of_cons; auto.
Qed.

Lemma tcpactive_from_app p l1 l2 buf :
  tcpactive_from p (l1 ++ l2) buf =
  match tcpactive_from p l1 buf with
  | Some c => Some c
  | None => tcpactive_from p l2 buf
  end.
Proof.
  induction l1 as [|t rest IH]; simpl; [done|].
  by destruct (segment_matches (conn_at p t) buf).
Qed.

(** What an allocation that returns a record leaves alone: the other
    records, and the places of the other records on the active list; the
    record returned is zeroed and allocated. *)
Lemma uip_tcpalloc_frame cfg p p' i :
  uip_tcpalloc cfg p = Done (p', Some i) ->
  (forall j, j <> i -> conn_at p' j = conn_at p j) /\
  (forall j, j ∈ g_active_tcp_connections p' ->
     j ∈ g_active_tcp_connections p) /\
  length (g_tcp_connections p') = length (g_tcp_connections p) /\
  ((i < length (g_tcp_connections p))%nat ->
   conn_at p' i = set_tcpstateflags UIP_ALLOCATED conn_zero).
Proof.
  assert (Hpop : forall q c rest q' r,
            g_free_tcp_connections q = c :: rest ->
            uip_tcpalloc cfg q = Done (q', Some r) ->
            r = c /\
            (forall j, j <> r -> conn_at q' j = conn_at q j) /\
            g_active_tcp_connections q' = g_active_tcp_connections q /\
            length (g_tcp_connections q') = length (g_tcp_connections q) /\
            ((r < length (g_tcp_connections q))%nat ->
             conn_at q' r = set_tcpstateflags UIP_ALLOCATED conn_zero)).
  { intros q c rest q' r Hf Hal.
    rewrite (uip_tcpalloc_pop cfg q c rest Hf) in Hal.
    injection Hal as <- <-. split; [done|].
    split; [intros j Hj; by rewrite conn_at_set_conn_ne|].
    split; [done|]. split; [simpl; by rewrite length_insert|].
    intros Hlt. by rewrite conn_at_set_conn_eq. }
  intros Hal.
  destruct (g_free_tcp_connections p) as [|c rest] eqn:Hf.
  - destruct (CONFIG_NET_SOLINGER cfg) eqn:Hl.
    + by rewrite (uip_tcpalloc_empty_linger cfg p Hl Hf) in Hal.
    + rewrite (uip_tcpalloc_empty cfg p Hl Hf) in Hal.
      destruct (reclaim_scan p (g_active_tcp_connections p) None) as [v|];
        [|done].
      destruct (decide (crefs (conn_at p v) = 0)) as [Hc|Hc];
        [|by rewrite uip_tcpfree_assert_fails in Hal].
      rewrite (uip_tcpfree_Done cfg p v Hc) in Hal. simpl in Hal.
      rewrite Hf in Hal.
      eapply Hpop in Hal as (-> & H1 & H2 & H3 & H4); [|simpl; reflexivity].
      simpl in H3, H4. rewrite length_insert in H3, H4.
      split.
      * intros j Hj. rewrite (H1 j Hj). unfold conn_at; simpl.
        by rewrite list_lookup_total_insert_ne.
      * split; [|by split].
        intros j. rewrite H2. simpl. case_bool_decide; [|done].
        apply dq_rem_elem_of.
  - eapply Hpop in Hal as (-> & H1 & H2 & H3 & H4); [|exact Hf].
    split; [done|]. split; [by rewrite H2 | by split].
Qed.

(** X4: in a pool that keeps its records in place, when no active record
    answers to a segment, a successful [uip_tcpaccept] of the segment makes
    [uip_tcpactive] find the new record for it; the new record can be
    released at once, and after [uip_tcpfree] the lookup finds no record
    again. *)
Theorem uip_tcpaccept_active_free cfg p buf p1 i :
  pool_inv p ->
  uip_tcpactive p buf = None ->
  uip_tcpaccept cfg p buf = Done (p1, Some i) ->
  uip_tcpactive p1 buf = Some i /\
  exists p2, uip_tcpfree cfg p1 i = Done p2 /\ uip_tcpactive p2 buf = None.
Proof.
  intros Hinv Hnone Hacc. unfold uip_tcpaccept in Hacc.
  destruct (uip_tcpalloc cfg p) as [[pa [k|]]| |] eqn:Hal; simpl in Hacc;
    try done.
  injection Hacc as Hp1 <-.
  destruct (pool_inv_alloc cfg p pa (Some k) Hal Hinv) as [Hinva Hk].
  destruct (Hk k eq_refl) as [Hlt Hst].
  destruct (uip_tcpalloc_frame cfg p pa k Hal) as (Hother & Hact & Hlen & Hzero).
  rewrite <- Hlen in Hzero. specialize (Hzero Hlt).
  assert (Hnk : k ∉ g_active_tcp_connections pa).
  { destruct (inv_in_place pa Hinva k _ (lookup_conn_at pa k Hlt))
      as (_ & H2 & _). by destruct (H2 Hst). }
  assert (Hcr : crefs (conn_at pa k) = 0) by (by rewrite Hzero).
  assert (Hold : forall j, j ∈ g_active_tcp_connections pa ->
                   j <> k /\ segment_matches (conn_at p j) buf = false).
  { intros j Hj. split; [intros ->; done|].
    unfold uip_tcpactive in Hnone. rewrite tcpactive_from_None in Hnone.
    by apply Hnone, Hact. }
  set (acc := accepted_conn cfg (conn_at pa k) buf).
  assert (Hmatch : segment_matches acc buf = true).
  { unfold segment_matches, acc. simpl. by rewrite !Z.eqb_refl. }
  assert (A1 : g_active_tcp_connections p1 =
               g_active_tcp_connections pa ++ [k]) by (by rewrite <- Hp1).
  assert (A2 : conn_at p1 k = acc)
    by (rewrite <- Hp1; by apply (conn_at_set_conn_eq pa)).
  assert (A3 : forall j, j ∈ g_active_tcp_connections pa ->
                 segment_matches (conn_at p1 j) buf = false).
  { intros j Hj. destruct (Hold j Hj) as [Hne Hm].
    replace (conn_at p1 j) with (conn_at p j); [done|].
    rewrite <- Hother by done. symmetry. rewrite <- Hp1.
    by apply (conn_at_set_conn_ne pa). }
  split.
  - unfold uip_tcpactive. rewrite A1, tcpactive_from_app.
    rewrite (proj2 (tcpactive_from_None p1 _ buf) A3).
    simpl. by rewrite A2, Hmatch.
  - assert (Hc1 : crefs (conn_at p1 k) = 0) by (by rewrite A2).
    rewrite (uip_tcpfree_Done cfg p1 k Hc1).
    eexists. split; [reflexivity|].
    unfold uip_tcpactive. simpl g_active_tcp_connections.
    rewrite A2. change (tcpstateflags acc) with UIP_SYN_RCVD.
    rewrite bool_decide_eq_true_2 by done.
    rewrite A1, dq_rem_middle by done. rewrite app_nil_r.
    apply tcpactive_from_None. intros j Hj.
    destruct (Hold j Hj) as [Hne Hm].
    rewrite <- (A3 j Hj). f_equal. unfold conn_at. simpl.
    by rewrite list_lookup_total_insert_ne.
Qed.

Lemma uip_tcpaccept_active_free_witness :
  let cfg := build_le 2 false in
  let buf := {| srcipaddr := 167772161; srcport := swap16 40000;
                destport := swap16 80; seqno := 1000 |} in
  exists p1 p2,
    uip_tcpaccept cfg (uip_tcpinit cfg) buf = Done (p1, Some 0%nat) /\
    uip_tcpactive p1 buf = Some 0%nat /\
    uip_tcpfree cfg p1 0 = Done p2 /\ uip_tcpactive p2 buf = None.
Proof.
  intros cfg buf. eexists.
  assert (Hacc : uip_tcpaccept cfg (uip_tcpinit cfg) buf = Done (_, Some 0%nat))
    by (vm_compute; reflexivity).
  destruct (uip_tcpaccept_active_free cfg (uip_tcpinit cfg) buf _ 0%nat
              (pool_inv_init cfg) eq_refl Hacc) as (H1 & p2 & H2 & H3).
  exists p2. split; [exact Hacc|]. split; [exact H1|].
  split; [exact H2 | exact H3].
Defined.

(** ** Failed calls *)

Lemma uip_selectport_error cfg p portno p' e :
  uip_selectport cfg p portno = Done (p', PortErr e) ->
  p' = p /\ e = EADDRINUSE /\ portno <> 0 /\ port_in_use p portno.
Proof.
  unfold uip_selectport. destruct (Z.eqb_spec portno 0) as [->|Hne].
  - by destruct (selectport_loop cfg p selectport_rounds (g_last_tcp_port p))
      as [[??]|].
  - destruct (uip_tcplistener p portno) as [k|] eqn:E; [|done].
    intros [= <- <-]. repeat split; [done|].
    apply uip_tcplistener_in_use. by exists k.
Qed.

Lemma uip_tcpalloc_none cfg p p' :
  uip_tcpalloc cfg p = Done (p', None) ->
  p' = p /\ g_free_tcp_connections p = [].
Proof.
  intros Hal. destruct (g_free_tcp_connections p) as [|c rest] eqn:Hf.
  - split; [|done]. destruct (CONFIG_NET_SOLINGER cfg) eqn:Hl.
    + rewrite (uip_tcpalloc_empty_linger cfg p Hl Hf) in Hal.
      by injection Hal as <-.
    + rewrite (uip_tcpalloc_empty cfg p Hl Hf) in Hal.
      destruct (reclaim_scan p (g_active_tcp_connections p) None) as [v|];
        [|by injection Hal as <-].
      destruct (decide (crefs (conn_at p v) = 0)) as [Hc|Hc];
        [|by rewrite uip_tcpfree_assert_fails in Hal].
      rewrite (uip_tcpfree_Done cfg p v Hc) in Hal. simpl in Hal.
      erewrite uip_tcpalloc_pop in Hal by (simpl; rewrite Hf; reflexivity).
      done.
  - by rewrite (uip_tcpalloc_pop cfg p c rest Hf) in Hal.
Qed.

(** X5: a call that reports failure has changed nothing.  When
    [uip_tcpbind] or [uip_tcpconnect] returns an errno, and when
    [uip_tcpaccept] returns the null pointer, the pool is as it was before
    the call: no record, no queue and not the port counter has changed.  The
    errno of [uip_tcpbind] is always [EADDRINUSE], for a requested port that
    is not 0; [uip_tcpaccept] returns null only with the free list empty. *)
Theorem failed_calls_change_nothing cfg p :
  (forall conn addr p' e,
     uip_tcpbind cfg p conn addr = Done (p', ERROR e) ->
     p' = p /\ e = EADDRINUSE /\ ntohs cfg (sin_port addr) <> 0) /\
  (forall conn addr p' e,
     uip_tcpconnect cfg p conn addr = Done (p', ERROR e) -> p' = p) /\
  (forall buf p',
     uip_tcpaccept cfg p buf = Done (p', None) ->
     p' = p /\ g_free_tcp_connections p = []).
Proof.
  split; [|split].
  - intros conn addr p' e. unfold uip_tcpbind.
    destruct (uip_selectport cfg p (ntohs cfg (sin_port addr)))
      as [[p1 [port|e1]]| |] eqn:Hsel; simpl; try done.
    intros [= <- <-]. by apply uip_selectport_error in Hsel as (? & ? & ? & _).
  - intros conn addr p' e. unfold uip_tcpconnect.
    destruct conn as [i|]; [|by intros [= <- _]].
    case_bool_decide; [by intros [= <- _]|].
    destruct (uip_selectport cfg p (ntohs cfg (lport (conn_at p i))))
      as [[p1 [port|e1]]| |] eqn:Hsel; simpl; try done.
    intros [= <- <-]. by apply uip_selectport_error in Hsel as [-> _].
  - intros buf p'. unfold uip_tcpaccept.
    destruct (uip_tcpalloc cfg p) as [[p1 [i|]]| |] eqn:Hal; simpl; try done.
    intros [= <-]. by apply uip_tcpalloc_none in Hal.
Qed.

(** ** Bind, then connect *)

(** X6: where the byte-order conversion leaves the port as it is (every
    port on a big-endian host), a record that has been bound to a port
    other than 0 cannot be connected: [uip_tcpconnect] runs the in-use
    check on the port of the record over the whole array, finds the record
    itself, which is allocated and has this port, and fails with
    [EADDRINUSE], leaving the pool as it was. *)
Theorem uip_tcpbind_then_connect cfg p conn addr p1 raddr :
  (conn < length (g_tcp_connections p))%nat ->
  tcpstateflags (conn_at p conn) = UIP_ALLOCATED ->
  sin_port addr <> 0 ->
  ntohs cfg (sin_port addr) = sin_port addr ->
  uip_tcpbind cfg p conn addr = Done (p1, OK) ->
  uip_tcpconnect cfg p1 (Some conn) raddr = Done (p1, ERROR EADDRINUSE).
Proof.
  intros Hlt Hst Hport Hsame Hbind.
  destruct (uip_tcpbind_frame cfg p conn addr p1 OK Hbind)
    as (_ & _ & Hlen & Hstates & Hlport).
  specialize (Hlport eq_refl Hlt).
  unfold uip_tcpconnect. rewrite Hstates, Hst.
  rewrite bool_decide_eq_false_2 by (intros H; by apply H).
  rewrite Hlport, Hsame. unfold uip_selectport.
  destruct (Z.eqb_spec (sin_port addr) 0) as [|_]; [done|].
  assert (Hin : port_in_use p1 (sin_port addr)).
  { exists conn, (conn_at p1 conn). split.
    - apply lookup_conn_at. by rewrite Hlen.
    - split; [|done]. rewrite Hstates, Hst. done. }
  apply uip_tcplistener_in_use in Hin as [k ->]. done.
Qed.

Lemma uip_tcpbind_then_connect_witness :
  let cfg := build_be 2 false in
  let p := {| g_tcp_connections :=
                [set_tcpstateflags UIP_ALLOCATED conn_zero; conn_zero];
              g_free_tcp_connections := [1%nat];
              g_active_tcp_connections := [];
              g_last_tcp_port := 1024; hooks := [] |} in
  let addr := {| sin_port := 8080; sin_addr := 0 |} in
  let raddr := {| sin_port := 80; sin_addr := 167772161 |} in
  exists p1, uip_tcpbind cfg p 0 addr = Done (p1, OK) /\
    uip_tcpconnect cfg p1 (Some 0%nat) raddr = Done (p1, ERROR EADDRINUSE).
Proof.
  intros cfg p addr raddr. eexists.
  assert (Hbind : uip_tcpbind cfg p 0 addr = Done (_, OK))
    by (vm_compute; reflexivity).
  split; [exact Hbind|].
  apply (uip_tcpbind_then_connect cfg p 0%nat addr _ raddr);
    [simpl; lia | reflexivity | simpl; lia | reflexivity | exact Hbind].
Defined.

(** ** What the selector returns for port 0 *)

Lemma selectport_loop_result cfg p fuel : forall c portno last,
  selectport_loop cfg p fuel c = Some (portno, last) ->
  1024 <= c < 32000 ->
  1025 <= portno <= 32000 /\
  last = (if portno =? 32000 then 4096 else portno) /\
  ~ port_in_use p (htons cfg last).
Proof.
  induction fuel as [|fuel IH]; intros c portno last; [done|].
  rewrite selectport_loop_unfold. intros Hloop Hc.
  assert (Hn : 1025 <= next_port c < 32000).
  { unfold next_port. rewrite Z.mod_small by lia.
    destruct (Z.leb_spec 32000 (c + 1)); lia. }
  destruct (uip_tcplistener p (htons cfg (next_port c))) as [k|] eqn:E.
  - apply (IH _ _ _ Hloop). lia.
  - injection Hloop as <- <-. apply uip_tcplistener_free in E.
    split; [rewrite Z.mod_small by lia; lia|]. split; [|done].
    unfold next_port. rewrite Z.mod_small by lia.
    destruct (Z.leb_spec 32000 (c + 1));
      destruct (Z.eqb_spec (c + 1) 32000); lia.
Qed.

(** X7: with the counter in 1024..31999, a call of [uip_selectport] for
    port 0 that returns never returns an errno.  The port returned lies in
    1025..32000; the counter is left at that port, except that for the port
    32000 it is left at 4096; no record that is not closed has the value of
    the counter as its local port (the check is made on the counter, so for
    32000 it is made on 4096); nothing but the counter has changed. *)
Theorem uip_selectport_zero_result cfg p p' r :
  1024 <= g_last_tcp_port p < 32000 ->
  uip_selectport cfg p 0 = Done (p', r) ->
  exists portno, r = Port portno /\
    1025 <= portno <= 32000 /\
    g_last_tcp_port p' = (if portno =? 32000 then 4096 else portno) /\
    ~ port_in_use p (htons cfg (g_last_tcp_port p')) /\
    p' = set_last_tcp_port (g_last_tcp_port p') p.
Proof.
  intros Hc. rewrite uip_selectport_zero.
  destruct (selectport_loop cfg p selectport_rounds (g_last_tcp_port p))
    as [[portno last]|] eqn:Hloop; [|done].
  intros [= <- <-]. exists portno.
  destruct (selectport_loop_result cfg p _ _ _ _ Hloop Hc) as (H1 & H2 & H3).
  split; [done|]. split; [done|]. simpl.
  split; [done|]. split; [done|]. done.
Qed.

Lemma uip_selectport_zero_result_witness :
  let cfg := build_le 2 false in
  let p := set_last_tcp_port 31999 (uip_tcpinit cfg) in
  exists portno,
    uip_selectport cfg p 0 = Done (set_last_tcp_port 4096 p, Port portno) /\
    1025 <= portno <= 32000.
Proof.
  intros cfg p.
  assert (Hsel : uip_selectport cfg p 0 =
                 Done (set_last_tcp_port 4096 p, Port 32000))
    by (vm_compute; reflexivity).
  destruct (uip_selectport_zero_result cfg p _ _ ltac:(simpl; lia) Hsel)
    as (portno & Hr & Hrange & _).
  exists portno. injection Hr as <-. split; [exact Hsel | exact Hrange].
Defined.

(** ** Connecting from an ephemeral port *)

(** X8: a record whose port converts to 0 is connected from an ephemeral
    port.  When the call succeeds and the counter has not just gone back
    to 4096, the local port stored in the record is the counter in network
    byte order, and [uip_tcplistener] for this port returns this very
    record: no other record that is not closed has the port. *)
Theorem uip_tcpconnect_ephemeral_listener cfg p i addr p' :
  (i < length (g_tcp_connections p))%nat ->
  1024 <= g_last_tcp_port p < 32000 ->
  ntohs cfg (lport (conn_at p i)) = 0 ->
  uip_tcpconnect cfg p (Some i) addr = Done (p', OK) ->
  g_last_tcp_port p' <> 4096 ->
  lport (conn_at p' i) = htons cfg (g_last_tcp_port p') /\
  uip_tcplistener p' (lport (conn_at p' i)) = Some i.
Proof.
  intros Hlt Hc Hzero Hcon Hnowrap. unfold uip_tcpconnect in Hcon.
  case_bool_decide as Hst; [done|].
  rewrite Hzero, uip_selectport_zero in Hcon.
  destruct (selectport_loop cfg p selectport_rounds (g_last_tcp_port p))
    as [[portno last]|] eqn:Hloop; [|done].
  destruct (selectport_loop_result cfg p _ _ _ _ Hloop Hc) as (H1 & H2 & H3).
  simpl in Hcon. injection Hcon as Hp'.
  assert (Hlast : g_last_tcp_port p' = last) by (by rewrite <- Hp').
  rewrite Hlast in *.
  assert (Hport : portno = last)
    by (destruct (Z.eqb_spec portno 32000); [done | by subst]).
  subst portno.
  assert (Hrec : conn_at p' i =
                 connected_conn cfg (conn_at p i) last addr).
  { rewrite <- Hp'. by apply (conn_at_set_conn_eq (set_last_tcp_port last p)). }
  assert (Hlport : lport (conn_at p' i) = htons cfg last).
  { rewrite Hrec. simpl. by rewrite Z.mod_small by lia. }
  split; [done|]. rewrite Hlport.
  assert (Hconns : g_tcp_connections p' =
                   <[i := connected_conn cfg (conn_at p i) last addr]>
                     (g_tcp_connections p)) by (by rewrite <- Hp').
  assert (Hin : port_in_use p' (htons cfg last)).
  { exists i, (conn_at p' i). split.
    - apply lookup_conn_at. by rewrite Hconns, length_insert.
    - split; [by rewrite Hrec | done]. }
  apply uip_tcplistener_in_use in Hin as [k Hk]. rewrite Hk. f_equal.
  apply tcplistener_from_Some in Hk as (j & c & -> & Hj & Hs & Hl).
  destruct (decide (j = i)) as [->|Hne]; [done|].
  exfalso. apply H3. exists j, c.
  rewrite Hconns, list_lookup_insert_ne in Hj by done. done.
Qed.

Lemma uip_tcpconnect_ephemeral_listener_witness :
  let cfg := build_le 2 false in
  let p := {| g_tcp_connections :=
                [conn_zero; set_tcpstateflags UIP_ALLOCATED conn_zero];
              g_free_tcp_connections := [0%nat];
              g_active_tcp_connections := [];
              g_last_tcp_port := 1024; hooks := [] |} in
  let addr := {| sin_port := swap16 80; sin_addr := 167772161 |} in
  exists p', uip_tcpconnect cfg p (Some 1%nat) addr = Done (p', OK) /\
    lport (conn_at p' 1) = swap16 1025 /\
    uip_tcplistener p' (swap16 1025) = Some 1%nat.
Proof.
  intros cfg p addr. eexists.
  assert (Hcon : uip_tcpconnect cfg p (Some 1%nat) addr = Done (_, OK))
    by (vm_compute; reflexivity).
  split; [exact Hcon|].
  destruct (uip_tcpconnect_ephemeral_listener cfg p 1%nat addr _
              ltac:(simpl; lia) ltac:(simpl; lia) eq_refl Hcon)
    as [H1 H2]; [vm_compute; discriminate|].
  split; [exact H1|]. rewrite H1 in H2. exact H2.
Defined.

(** ** What allocation hands out *)

(** X9: in a pool that keeps its records in place, the record that
    [uip_tcpalloc] returns is a record of the array that was closed, at the
    head of the free list, or else, the free list being empty and linger
    semantics not configured, an active record in a sacrificial state.  A
    record that is allocated, in a handshake or established is never handed
    out. *)
Theorem uip_tcpalloc_not_in_use cfg p p' i :
  pool_inv p ->
  uip_tcpalloc cfg p = Done (p', Some i) ->
  (i < length (g_tcp_connections p))%nat /\
  ((tcpstateflags (conn_at p i) = UIP_CLOSED /\
    head (g_free_tcp_connections p) = Some i) \/
   (CONFIG_NET_SOLINGER cfg = false /\ g_free_tcp_connections p = [] /\
    i ∈ g_active_tcp_connections p /\
    sacrificial (tcpstateflags (conn_at p i)) = true)) /\
  tcpstateflags (conn_at p i) <> UIP_ALLOCATED /\
  tcpstateflags (conn_at p i) <> UIP_SYN_RCVD /\
  tcpstateflags (conn_at p i) <> UIP_SYN_SENT /\
  tcpstateflags (conn_at p i) <> UIP_ESTABLISHED.
Proof.
  intros Hinv Hal.
  assert (Hcases : (i < length (g_tcp_connections p))%nat /\
    ((tcpstateflags (conn_at p i) = UIP_CLOSED /\
      head (g_free_tcp_connections p) = Some i) \/
     (CONFIG_NET_SOLINGER cfg = false /\ g_free_tcp_connections p = [] /\
      i ∈ g_active_tcp_connections p /\
      sacrificial (tcpstateflags (conn_at p i)) = true))).
  { destruct (g_free_tcp_connections p) as [|c rest] eqn:Hf.
    - destruct (CONFIG_NET_SOLINGER cfg) eqn:Hl;
        [by rewrite (uip_tcpalloc_empty_linger cfg p Hl Hf) in Hal|].
      rewrite (uip_tcpalloc_empty cfg p Hl Hf) in Hal.
      destruct (reclaim_scan p (g_active_tcp_connections p) None) as [v|]
        eqn:Hscan; [|done].
      apply reclaim_scan_found in Hscan as [Hscan|[Hv Hs]]; [done|].
      destruct (decide (crefs (conn_at p v) = 0)) as [Hc|Hc];
        [|by rewrite uip_tcpfree_assert_fails in Hal].
      rewrite (uip_tcpfree_Done cfg p v Hc) in Hal. simpl in Hal.
      erewrite uip_tcpalloc_pop in Hal by (simpl; rewrite Hf; reflexivity).
      injection Hal as _ <-.
      split; [by apply (inv_active_valid p Hinv)|]. right. done.
    - rewrite (uip_tcpalloc_pop cfg p c rest Hf) in Hal.
      injection Hal as _ <-.
      assert (Hlt : (c < length (g_tcp_connections p))%nat)
        by (apply (inv_free_valid p Hinv); rewrite Hf; apply elem_of_cons;
            auto).
      split; [done|]. left. split; [|done].
      destruct (inv_in_place p Hinv c _ (lookup_conn_at p c Hlt)) as (H1 & _).
      apply H1. rewrite Hf. apply elem_of_cons; auto. }
  destruct Hcases as [Hlt Hor]. split; [done|]. split; [done|].
  destruct Hor as [[Hs _]|(_ & _ & _ & Hs)].
  - rewrite Hs. done.
  - destruct (tcpstateflags (conn_at p i)); done.
Qed.

Lemma uip_tcpalloc_not_in_use_witness :
  let cfg := build_le 2 false in
  exists p', uip_tcpalloc cfg (uip_tcpinit cfg) = Done (p', Some 0%nat) /\
    tcpstateflags (conn_at (uip_tcpinit cfg) 0) <> UIP_ESTABLISHED.
Proof.
  intros cfg. eexists.
  assert (Hal : uip_tcpalloc cfg (uip_tcpinit cfg) = Done (_, Some 0%nat))
    by (vm_compute; reflexivity).
  split; [exact Hal|].
  apply (uip_tcpalloc_not_in_use cfg (uip_tcpinit cfg) _ 0%nat
           (pool_inv_init cfg) Hal).
Defined.

(** X10: allocating the head [c] of the free list and releasing it at once
    recycles the record: both calls return, [c] has moved from the head of
    the free list to its tail, the record is all zero and closed, no
    release hook has been called, and the active list, the port counter
    and the other records are as before. *)
Theorem uip_tcpalloc_then_free cfg p c rest :
  g_free_tcp_connections p = c :: rest ->
  (c < length (g_tcp_connections p))%nat ->
  exists p1 p2,
    uip_tcpalloc cfg p = Done (p1, Some c) /\
    uip_tcpfree cfg p1 c = Done p2 /\
    g_free_tcp_connections p2 = rest ++ [c] /\
    g_active_tcp_connections p2 = g_active_tcp_connections p /\
    g_last_tcp_port p2 = g_last_tcp_port p /\
    hooks p2 = hooks p /\
    conn_at p2 c = conn_zero /\
    forall j, j <> c -> conn_at p2 j = conn_at p j.
Proof.
  intros Hf Hlt.
  set (p1 := set_conn c (set_tcpstateflags UIP_ALLOCATED conn_zero)
               (set_free rest p)).
  assert (Hrec : conn_at p1 c = set_tcpstateflags UIP_ALLOCATED conn_zero)
    by (by apply conn_at_set_conn_eq).
  assert (Hc : crefs (conn_at p1 c) = 0) by (by rewrite Hrec).
  exists p1. eexists. split; [by apply uip_tcpalloc_pop|].
  rewrite (uip_tcpfree_Done cfg p1 c Hc). split; [reflexivity|].
  rewrite Hrec. simpl.
  split; [done|]. split; [done|]. split; [done|].
  split.
  { unfold teardown_hooks. simpl.
    destruct (CONFIG_NET_TCP_READAHEAD cfg),
      (CONFIG_NET_TCP_WRITE_BUFFERS cfg), (CONFIG_NET_TCPBACKLOG cfg);
      simpl; by rewrite app_nil_r. }
  split.
  { unfold conn_at; simpl.
    rewrite list_lookup_total_insert_eq by (by rewrite length_insert).
    unfold torn_down, conn_zero. simpl.
    by destruct (CONFIG_NET_TCP_READAHEAD cfg),
      (CONFIG_NET_TCP_WRITE_BUFFERS cfg), (CONFIG_NET_TCPBACKLOG cfg). }
  intros j Hj. unfold conn_at; simpl.
  by rewrite !list_lookup_total_insert_ne.
Qed.

Lemma uip_tcpalloc_then_free_witness :
  let cfg := build_le 3 true in
  exists p1 p2,
    uip_tcpalloc cfg (uip_tcpinit cfg) = Done (p1, Some 0%nat) /\
    uip_tcpfree cfg p1 0 = Done p2 /\
    g_free_tcp_connections p2 = [1; 2; 0]%nat.
Proof.
  intros cfg.
  destruct (uip_tcpalloc_then_free cfg (uip_tcpinit cfg) 0%nat [1; 2]%nat)
    as (p1 & p2 & H1 & H2 & H3 & _); [reflexivity | simpl; lia |].
  exists p1, p2. split; [exact H1|]. split; [exact H2 | exact H3].
Defined.

(** ** The size of the pool *)

(** X11: the array never grows or shrinks.  Whatever calls are made, and
    whatever records they release, the pool has the
    [CONFIG_NET_TCP_CONNS] records that [uip_tcpinit] set up. *)
Theorem reachable_capacity cfg may_free p :
  reachable cfg may_free p ->
  length (g_tcp_connections p) = CONFIG_NET_TCP_CONNS cfg.
Proof.
  induction 1 as [|p o p' Hreach IH Hvalid Hfree Hrun];
    [simpl; by rewrite length_replicate|].
  rewrite <- IH. clear IH.
  assert (Halloc : forall q q' r, uip_tcpalloc cfg q = Done (q', r) ->
            length (g_tcp_connections q') = length (g_tcp_connections q)).
  { intros q q' [i|] Hal.
    - by destruct (uip_tcpalloc_frame cfg q q' i Hal) as (_ & _ & Hlen & _).
    - by apply uip_tcpalloc_none in Hal as [-> _]. }
  destruct o as [|conn|buf|conn addr|conn addr]; simpl in Hrun.
  - destruct (uip_tcpalloc cfg p) as [[p1 r]| |] eqn:Hal; simpl in Hrun;
      try done.
    injection Hrun as <-. by eapply Halloc.
  - by destruct (uip_tcpfree_free_list cfg p conn p' Hrun).
  - unfold uip_tcpaccept in Hrun.
    destruct (uip_tcpalloc cfg p) as [[p1 [i|]]| |] eqn:Hal; simpl in Hrun;
      try done; injection Hrun as <-; simpl;
      rewrite ?length_insert; by eapply Halloc.
  - unfold uip_tcpconnect in Hrun.
    destruct conn as [i|]; [|by injection Hrun as <-].
    case_bool_decide; [by injection Hrun as <-|].
    destruct (uip_selectport cfg p (ntohs cfg (lport (conn_at p i))))
      as [[p1 [port|e]]| |] eqn:Hsel; simpl in Hrun; try done;
      apply uip_selectport_frame in Hsel; injection Hrun as <-;
      rewrite Hsel; simpl; by rewrite ?length_insert.
  - destruct (uip_tcpbind cfg p conn addr) as [[p1 s]| |] eqn:Hbind;
      simpl in Hrun; try done.
    injection Hrun as <-.
    by destruct (uip_tcpbind_frame cfg p conn addr p1 s Hbind)
      as (_ & _ & Hlen & _).
Qed.

Lemma reachable_capacity_witness :
  let cfg := build_le 2 false in
  exists p, run cfg (uip_tcpinit cfg) (op_free 0) = Done p /\
    length (g_tcp_connections p) = 2%nat.
Proof.
  intros cfg. eexists.
  assert (Hrun : run cfg (uip_tcpinit cfg) (op_free 0) = Done _)
    by (vm_compute; reflexivity).
  split; [exact Hrun|].
  apply (reachable_capacity cfg free_any).
  apply (reachable_run cfg free_any _ (op_free 0) _
           (reachable_init cfg free_any));
    [simpl; lia | done | exact Hrun].
Defined.

(** X12: the two queues never hold more entries than the pool has records:
    in every pool reached by calls that release only records in use, the
    lengths of the free list and of the active list add up to at most the
    number of records. *)
Theorem reachable_queue_lengths cfg p :
  reachable cfg free_in_use p ->
  (length (g_free_tcp_connections p) + length (g_active_tcp_connections p)
   <= length (g_tcp_connections p))%nat.
Proof.
  intros Hreach. destruct (reachable_pool_inv cfg p Hreach)
    as [I1 I2 I3 I4 I5].
  cut (length (g_free_tcp_connections p ++ g_active_tcp_connections p)
       <= length (seq 0 (length (g_tcp_connections p))))%nat;
    [by rewrite length_app, length_seq|].
  apply submseteq_length, NoDup_submseteq.
  - apply NoDup_app. split; [done|]. split; [|done].
    intros i Hf Ha.
    destruct (I5 i _ (lookup_conn_at p i (I3 i Hf))) as (_ & _ & _ & H4).
    by apply H4.
  - intros i [Hi|Hi]%elem_of_app; apply elem_of_seq.
    + specialize (I3 i Hi). lia.
    + specialize (I4 i Hi). lia.
Qed.

Lemma reachable_queue_lengths_witness :
  let cfg := build_le 2 false in
  (length (g_free_tcp_connections (uip_tcpinit cfg))
   + length (g_active_tcp_connections (uip_tcpinit cfg))
   <= length (g_tcp_connections (uip_tcpinit cfg)))%nat.
Proof.
  intros cfg.
  exact (reachable_queue_lengths cfg (uip_tcpinit cfg)
           (reachable_init cfg free_in_use)).
Defined.

(** ** Running out of records *)

(** X13: with linger semantics configured, in a pool that keeps its records
    in place, [uip_tcpalloc] returns the null pointer exactly when no
    record of the pool is closed, that is when every record is allocated
    or active. *)
Theorem uip_tcpalloc_exhausted_linger cfg p :
  pool_inv p ->
  CONFIG_NET_SOLINGER cfg = true ->
  (exists p', uip_tcpalloc cfg p = Done (p', None)) <->
  (forall i c, g_tcp_connections p !! i = Some c ->
     tcpstateflags c <> UIP_CLOSED).
Proof.
  intros Hinv Hl. split.
  - intros [p' Hal] i c Hi Hs.
    apply uip_tcpalloc_none in Hal as [_ Hf].
    destruct (inv_in_place p Hinv i c Hi) as (H1 & _).
    apply H1 in Hs. rewrite Hf in Hs. by apply elem_of_nil in Hs.
  - intros Hall. exists p. apply uip_tcpalloc_empty_linger; [done|].
    destruct (g_free_tcp_connections p) as [|c rest] eqn:Hf; [done|].
    exfalso.
    assert (Hc : c ∈ g_free_tcp_connections p)
      by (rewrite Hf; apply elem_of_cons; auto).
    pose proof (inv_free_valid p Hinv c Hc) as Hlt.
    apply (Hall c _ (lookup_conn_at p c Hlt)).
    by apply (inv_in_place p Hinv c _ (lookup_conn_at p c Hlt)).
Qed.

Lemma uip_tcpalloc_exhausted_linger_witness :
  let cfg := build_le 1 true in
  let p := {| g_tcp_connections := [set_tcpstateflags UIP_ALLOCATED conn_zero];
              g_free_tcp_connections := [];
              g_active_tcp_connections := [];
              g_last_tcp_port := 1024; hooks := [] |} in
  exists p', uip_tcpalloc cfg p = Done (p', None).
Proof.
  intros cfg p.
  assert (Hinv : pool_inv p).
  { apply (reachable_pool_inv cfg).
    by apply (reachable_run cfg free_in_use _ op_alloc _
                (reachable_init cfg free_in_use)). }
  apply (uip_tcpalloc_exhausted_linger cfg p Hinv eq_refl).
  intros i c Hi. destruct i as [|i]; simpl in Hi; [|discriminate].
  injection Hi as <-. discriminate.
Defined.

(** ** The counter stays in range *)

Lemma reachable_last_tcp_port_witness :
  let cfg := build_le 2 false in
  let any := {| sin_port := 0; sin_addr := 0 |} in
  exists p, run cfg (uip_tcpinit cfg) (op_bind 0 any) = Done p /\
    1024 <= g_last_tcp_port p < 32000.
Proof.
  intros cfg any. eexists.
  assert (Hrun : run cfg (uip_tcpinit cfg) (op_bind 0 any) = Done _)
    by (vm_compute; reflexivity).
  split; [exact Hrun|].
  apply (reachable_last_tcp_port cfg free_any).
  apply (reachable_run cfg free_any _ (op_bind 0 any) _
           (reachable_init cfg free_any));
    [simpl; lia | done | exact Hrun].
Defined.

(** ** Connect, then lookup *)

(** X16: in a pool that keeps its records in place, after a successful
    [uip_tcpconnect] a segment that comes from the remote address and port
    of the record to its local port is matched to the record by
    [uip_tcpactive], provided no record that was active before answers to
    the segment. *)
Theorem uip_tcpconnect_active cfg p i addr p' buf :
  pool_inv p ->
  (i < length (g_tcp_connections p))%nat ->
  uip_tcpconnect cfg p (Some i) addr = Done (p', OK) ->
  srcipaddr buf = sin_addr addr ->
  srcport buf = sin_port addr ->
  destport buf = lport (conn_at p' i) ->
  uip_tcpactive p buf = None ->
  uip_tcpactive p' buf = Some i.
Proof.
  intros Hinv Hlt Hcon Hip Hsp Hdp Hnone.
  unfold uip_tcpconnect in Hcon. case_bool_decide as Hst; [done|].
  assert (Hal : tcpstateflags (conn_at p i) = UIP_ALLOCATED)
    by (by destruct (decide (tcpstateflags (conn_at p i) = UIP_ALLOCATED))).
  destruct (uip_selectport cfg p (ntohs cfg (lport (conn_at p i))))
    as [[p1 [port|e]]| |] eqn:Hsel; simpl in Hcon; try done.
  apply uip_selectport_frame in Hsel. injection Hcon as Hp'.
  assert (Hni : i ∉ g_active_tcp_connections p).
  { destruct (inv_in_place p Hinv i _ (lookup_conn_at p i Hlt))
      as (_ & H2 & _). by destruct (H2 Hal). }
  assert (A1 : g_active_tcp_connections p' =
               g_active_tcp_connections p ++ [i])
    by (rewrite <- Hp', Hsel; done).
  assert (A2 : conn_at p' i = connected_conn cfg (conn_at p1 i) port addr).
  { rewrite <- Hp'. apply (conn_at_set_conn_eq p1). by rewrite Hsel. }
  assert (A3 : forall j, j <> i -> conn_at p' j = conn_at p j).
  { intros j Hj. rewrite <- Hp'.
    transitivity (conn_at p1 j); [by apply (conn_at_set_conn_ne p1)|].
    by rewrite Hsel. }
  unfold uip_tcpactive in *. rewrite A1, tcpactive_from_app.
  rewrite tcpactive_from_None in Hnone.
  rewrite (proj2 (tcpactive_from_None p' _ buf)).
  - simpl. unfold segment_matches. rewrite Hdp, Hip, Hsp, A2. simpl.
    by rewrite !Z.eqb_refl.
  - intros j Hj. rewrite A3; [by apply Hnone|]. by intros ->.
Qed.

Lemma uip_tcpconnect_active_witness :
  let cfg := build_le 2 false in
  let p := {| g_tcp_connections :=
                [set_tcpstateflags UIP_ALLOCATED conn_zero;
                 set_tcpstateflags UIP_CLOSED conn_zero];
              g_free_tcp_connections := [1%nat];
              g_active_tcp_connections := [];
              g_last_tcp_port := 1024; hooks := [] |} in
  let addr := {| sin_port := swap16 80; sin_addr := 167772161 |} in
  let buf := {| srcipaddr := 167772161; srcport := swap16 80;
                destport := swap16 1025; seqno := 7 |} in
  exists p', uip_tcpconnect cfg p (Some 0%nat) addr = Done (p', OK) /\
    uip_tcpactive p' buf = Some 0%nat.
Proof.
  intros cfg p addr buf. eexists.
  assert (Hcon : uip_tcpconnect cfg p (Some 0%nat) addr = Done (_, OK))
    by (vm_compute; reflexivity).
  split; [exact Hcon|].
  assert (Hinv : pool_inv p).
  { apply (reachable_pool_inv cfg).
    by apply (reachable_run cfg free_in_use _ op_alloc _
                (reachable_init cfg free_in_use)). }
  apply (uip_tcpconnect_active cfg p 0%nat addr _ buf Hinv);
    [simpl; lia | exact Hcon | reflexivity | reflexivity
    | vm_compute; reflexivity | reflexivity].
Defined.

(** ** The QSPI clock divider *)

Lemma qspi_scbr_spec q freq :
  0 < SAM_QSPI_CLOCK q <= 2147483648 ->
  0 < freq < 4294967296 ->
  1 <= qspi_scbr q freq <= 256 /\
  (SAM_QSPI_CLOCK q <= 256 * freq ->
   SAM_QSPI_CLOCK q <= qspi_scbr q freq * freq /\
   forall d, 1 <= d -> SAM_QSPI_CLOCK q <= d * freq ->
     qspi_scbr q freq <= d) /\
  (256 * freq < SAM_QSPI_CLOCK q -> qspi_scbr q freq = 256).
Proof.
  intros Hclk Hf. unfold qspi_scbr, u32.
  set (clk := SAM_QSPI_CLOCK q) in *.
  set (s := (freq + clk - 1) mod 4294967296).
  pose proof (Z.div_mod s freq ltac:(lia)) as Hdm.
  pose proof (Z.mod_pos_bound s freq ltac:(lia)) as Hmb.
  destruct (Z_lt_le_dec (freq + clk - 1) 4294967296) as [Hnowrap|Hwrap].
  - assert (Hs : s = freq + clk - 1)
      by (unfold s; rewrite Z.mod_small; lia).
    assert (H1 : 1 <= s / freq) by (apply Z.div_le_lower_bound; lia).
    destruct (Z.ltb_spec (s / freq) 1) as [|_]; [lia|].
    destruct (Z.gtb_spec (s / freq) 256) as [Hbig|Hsmall].
    + split; [lia|]. split; [|done]. intros Hlow. exfalso. nia.
    + split; [lia|]. split.
      * intros _. split; [nia|]. intros d Hd Hdf. nia.
      * intros Hhigh. exfalso. nia.
  - assert (Hs : s = freq + clk - 1 - 4294967296).
    { unfold s.
      rewrite <- (Z.mod_add _ (-1) 4294967296) by lia.
      rewrite Z.mod_small; lia. }
    assert (H0 : s / freq = 0) by (apply Z.div_small; lia).
    rewrite H0. simpl.
    split; [lia|]. split.
    + intros _. split; [lia|]. intros d Hd _. lia.
    + intros Hhigh. lia.
Qed.

(** X17: [qspi_spi_setfrequency] treats the requested frequency as a
    not-to-exceed value.  For a peripheral clock of at most 2^31 Hz and a
    requested frequency other than 0 and other than the one in force, the
    call stores the request, and returns and stores the clock divided by a
    divider between 1 and 256.  When the clock is at most 256 times the
    request, the divider is the least one that brings the clock down to the
    request or below, the addition on 32 bits wrapping around or not, and
    the frequency returned does not exceed the request; when the request
    is lower than that, the divider is 256 and the frequency returned is
    the clock divided by 256. *)
Theorem qspi_spi_setfrequency_not_to_exceed q spics scr mr freq :
  0 < SAM_QSPI_CLOCK q <= 2147483648 ->
  0 < freq < 4294967296 ->
  frequency spics <> freq ->
  exists spics' writes,
    qspi_spi_setfrequency q spics scr mr freq =
      Some (spics', writes, actual spics') /\
    frequency spics' = freq /\
    actual spics' = SAM_QSPI_CLOCK q / qspi_scbr q freq /\
    1 <= qspi_scbr q freq <= 256 /\
    (SAM_QSPI_CLOCK q <= 256 * freq ->
     actual spics' <= freq /\
     SAM_QSPI_CLOCK q <= qspi_scbr q freq * freq /\
     forall d, 1 <= d -> SAM_QSPI_CLOCK q <= d * freq ->
       qspi_scbr q freq <= d) /\
    (256 * freq < SAM_QSPI_CLOCK q ->
     actual spics' = SAM_QSPI_CLOCK q / 256).
Proof.
  intros Hclk Hf Hne.
  destruct (qspi_scbr_spec q freq Hclk Hf) as (Hrange & Hlow & Hhigh).
  unfold qspi_spi_setfrequency.
  destruct (Z.eqb_spec (frequency spics) freq) as [|_]; [done|].
  destruct (Z.eqb_spec freq 0) as [|_]; [lia|].
  exists {| frequency := freq;
            actual := SAM_QSPI_CLOCK q / qspi_scbr q freq |}.
  eexists. split; [reflexivity|]. simpl.
  split; [done|]. split; [done|]. split; [done|]. split.
  - intros H. destruct (Hlow H) as [H1 H2]. split; [|by split].
    apply Z.div_le_upper_bound; lia.
  - intros H. by rewrite (Hhigh H).
Qed.

Lemma qspi_spi_setfrequency_not_to_exceed_witness :
  let q := {| SAM_QSPI_CLOCK := 150000000; SAM_QSPI_SCR_OFFSET := 32;
              SAM_QSPI_MR_OFFSET := 4; QSPI_SCR_SCBR_MASK := 65280;
              QSPI_SCR_DLYBS_MASK := 16711680; QSPI_SCR_SCBR_SHIFT := 8;
              QSPI_MR_DLYBCT_MASK := 4278190080;
              QSPI_MR_DLYBCT_SHIFT := 24 |} in
  let spics := {| frequency := 0; actual := 0 |} in
  exists spics' writes,
    qspi_spi_setfrequency q spics 0 0 40000000 =
      Some (spics', writes, actual spics') /\
    actual spics' <= 40000000.
Proof.
  intros q spics.
  destruct (qspi_spi_setfrequency_not_to_exceed q spics 0 0 40000000)
    as (spics' & writes & H1 & _ & _ & _ & H2 & _);
    [simpl; lia | lia | simpl; lia |].
  exists spics', writes. split; [exact H1|]. apply H2. simpl; lia.
Defined.

(** X18: [qspi_spi_setfrequency] remembers the request.  After a call that
    returned, a further call for the same frequency returns the same
    frequency again, whatever the registers hold by then, writes no
    register and leaves the device state as it is. *)
Theorem qspi_spi_setfrequency_cached q spics scr mr freq spics' writes a
    scr' mr' :
  qspi_spi_setfrequency q spics scr mr freq = Some (spics', writes, a) ->
  qspi_spi_setfrequency q spics' scr' mr' freq = Some (spics', [], a).
Proof.
  unfold qspi_spi_setfrequency at 1.
  destruct (Z.eqb_spec (frequency spics) freq) as [Heq|Hne].
  - intros [= <- _ <-]. unfold qspi_spi_setfrequency.
    by rewrite Heq, Z.eqb_refl.
  - destruct (Z.eqb_spec freq 0) as [|_]; [done|].
    intros [= <- _ <-]. unfold qspi_spi_setfrequency. simpl.
    by rewrite Z.eqb_refl.
Qed.

Lemma qspi_spi_setfrequency_cached_witness :
  let q := {| SAM_QSPI_CLOCK := 150000000; SAM_QSPI_SCR_OFFSET := 32;
              SAM_QSPI_MR_OFFSET := 4; QSPI_SCR_SCBR_MASK := 65280;
              QSPI_SCR_DLYBS_MASK := 16711680; QSPI_SCR_SCBR_SHIFT := 8;
              QSPI_MR_DLYBCT_MASK := 4278190080;
              QSPI_MR_DLYBCT_SHIFT := 24 |} in
  let spics := {| frequency := 0; actual := 0 |} in
  exists spics' writes,
    qspi_spi_setfrequency q spics 0 0 40000000 =
      Some (spics', writes, 37500000) /\
    qspi_spi_setfrequency q spics' 1024 7 40000000 =
      Some (spics', [], 37500000).
Proof.
  intros q spics. eexists. eexists.
  assert (H : qspi_spi_setfrequency q spics 0 0 40000000 =
              Some (_, _, 37500000)) by (vm_compute; reflexivity).
  split; [exact H|].
  exact (qspi_spi_setfrequency_cached q spics 0 0 40000000 _ _ _ 1024 7 H).
Defined.
